(** * Resource cache pool of Langchain-Chatchat

    Shallow embedding of [server/knowledge_base/kb_cache/base.py] and
    [server/knowledge_base/kb_cache/faiss_cache.py]:

    - [OrderedDict]: the operations of [collections.OrderedDict] the pool uses,
      on an association list kept in recency order (oldest entry first);
    - [RLock]: [threading.RLock] as an owner with a recursion count;
    - [ThreadSafeObject], [CachePool]: the two classes of [base.py]; objects
      live on a heap and the pool maps keys to references, since the pool,
      the thread that builds an object and its users share it;
    - [Machine]: [EmbeddingsPool.load_embeddings] and
      [KBFaissPool.load_vector_store] as a program of numbered statements, one
      step per statement, executed by any number of threads over one shared
      pool (interleaving semantics);
    - [EmbeddingsPool], [Faiss]: the keys and the constructor bodies of the
      two pools, the second over a small file system, the table of knowledge
      bases that [get_kb_detail] of
      [server/db/repository/knowledge_base_repository.py] reads, and the
      embeddings pool its constructor calls;
    - [Ops]: sequences of calls of the pool's methods;
    - [WithAcquire], [ThreadSafeFaiss]: leaving a with-block, and the methods
      of [ThreadSafeFaiss] with the patched docstore search of
      [faiss_cache.py];
    - [KBSummary]: [KBSummaryService] of
      [server/knowledge_base/kb_summary/base.py], the caller of the
      knowledge-base pool, over a pool keyed by Python values;
    - [PoolLock]: the invariant that ties the pool lock to the program points
      of the threads.

    The properties follow the definitions. *)

From Stdlib Require Import ZArith Lia Bool Ascii.
From stdpp Require Import base option list strings relations.

Open Scope Z_scope.
Open Scope nat_scope.

(** Python exceptions the modelled code raises. *)
Inductive exn : Type :=
| KeyError
| AttributeError
| RuntimeError (msg : string)
| ValueError
| OtherError (tag : string).

(** What a call does when it is run by itself: it returns, raises, or blocks
    forever on a lock or an event nobody will release. *)
Inductive outcome (A : Type) : Type :=
| Ret (a : A)
| Raise (e : exn)
| Block.
Arguments Ret {A} a.
Arguments Raise {A} e.
Arguments Block {A}.

(** A value a library call returned, or the exception it raised. *)
Definition of_sum {A : Type} (r : A + exn) : outcome A :=
  match r with
  | inl a => Ret a
  | inr e => Raise e
  end.

(** A reference to a [ThreadSafeObject] on the heap. *)
Abbreviation objref := nat.

(** ** collections.OrderedDict *)
Module OrderedDict.
Section ops.
Context {K V : Type} `{EqDecision K}.

(** [d.get(key)] *)
Fixpoint get (k : K) (d : list (K * V)) : option V :=
  match d with
  | [] => None
  | (k', v) :: d' => if decide (k = k') then Some v else get k d'
  end.

(** [d[key] = v]: a present key keeps its position, a new key goes last. *)
Fixpoint setitem (k : K) (v : V) (d : list (K * V)) : list (K * V) :=
  match d with
  | [] => [(k, v)]
  | (k', v') :: d' =>
      if decide (k = k') then (k, v) :: d' else (k', v') :: setitem k v d'
  end.

(** [d.popitem(last=False)]; [None] is the KeyError of an empty dict. *)
Definition popitem_first (d : list (K * V)) : option ((K * V) * list (K * V)) :=
  match d with
  | [] => None
  | kv :: d' => Some (kv, d')
  end.

(** The dict without [key] ([del d[key]] when the key is present). *)
Fixpoint remove (k : K) (d : list (K * V)) : list (K * V) :=
  match d with
  | [] => []
  | (k', v) :: d' => if decide (k = k') then remove k d' else (k', v) :: remove k d'
  end.

(** [d.pop(key, None)] *)
Definition pop (k : K) (d : list (K * V)) : option V * list (K * V) :=
  (get k d, remove k d).

(** [d.move_to_end(key)]; [None] is the KeyError of a missing key. *)
Definition move_to_end (k : K) (d : list (K * V)) : option (list (K * V)) :=
  match get k d with
  | None => None
  | Some v => Some (remove k d ++ [(k, v)])
  end.

(** [list(d.keys())] *)
Definition keys (d : list (K * V)) : list K := map fst d.

End ops.
End OrderedDict.

(** ** threading.RLock *)
Module RLock.

(** [None]: free; [Some (t, n)]: owned by thread [t], acquired [n] times. *)
Definition t : Type := option (nat * nat).

(** [acquire()] by thread [tid]; [None] when the caller has to block. *)
Definition acquire (tid : nat) (l : t) : option t :=
  match l with
  | None => Some (Some (tid, 1))
  | Some (owner, n) =>
      if decide (owner = tid) then Some (Some (tid, S n)) else None
  end.

(** [release()] by thread [tid]; [None] is the RuntimeError of releasing a
    lock the caller does not own. *)
Definition release (tid : nat) (l : t) : option t :=
  match l with
  | None => None
  | Some (owner, n) =>
      if decide (owner = tid)
      then Some (match n with
                 | S (S m) => Some (tid, S m)
                 | _ => None
                 end)
      else None
  end.

End RLock.

(** ** class ThreadSafeObject *)
Module ThreadSafeObject.
Section obj.
Context {K P : Type}.

(** [_loaded] is the [threading.Event]; [_pool] tells whether the
    back-reference to the owning pool is set (the model has one pool). *)
Record t : Type := mk {
  _obj : option P;
  _key : K;
  _pool : bool;
  _lock : RLock.t;
  _loaded : bool
}.

(** [ThreadSafeObject(key, pool=self)]: no payload, the lock free, the event
    not set. *)
Definition __init__ (key : K) : t :=
  {| _obj := None; _key := key; _pool := true; _lock := None; _loaded := false |}.

Definition set_obj (v : option P) (x : t) : t :=
  {| _obj := v; _key := _key x; _pool := _pool x; _lock := _lock x;
     _loaded := _loaded x |}.

Definition set_lock (l : RLock.t) (x : t) : t :=
  {| _obj := _obj x; _key := _key x; _pool := _pool x; _lock := l;
     _loaded := _loaded x |}.

Definition set_loaded (b : bool) (x : t) : t :=
  {| _obj := _obj x; _key := _key x; _pool := _pool x; _lock := _lock x;
     _loaded := b |}.

(** [start_loading]: [self._loaded.clear()] *)
Definition start_loading (x : t) : t := set_loaded false x.

(** [finish_loading]: [self._loaded.set()] *)
Definition finish_loading (x : t) : t := set_loaded true x.

(** [wait_for_loading]: [self._loaded.wait()] returns once the event is set. *)
Definition wait_for_loading (x : t) : outcome unit :=
  if _loaded x then Ret tt else Block.

End obj.
Arguments t : clear implicits.
End ThreadSafeObject.

(** ** class CachePool *)
Module CachePool.
Import ThreadSafeObject.
Section pool.
Context {K P : Type} `{EqDecision K}.

Record t : Type := mk {
  _cache_num : Z;
  _cache : list (K * objref);
  atomic : RLock.t
}.

Definition with_cache (d : list (K * objref)) (p : t) : t :=
  {| _cache_num := _cache_num p; _cache := d; atomic := atomic p |}.

Definition with_atomic (l : RLock.t) (p : t) : t :=
  {| _cache_num := _cache_num p; _cache := _cache p; atomic := l |}.

(** [CachePool(cache_num)]: stores the bound, whatever its sign. *)
Definition __init__ (cache_num : Z) : outcome t :=
  Ret {| _cache_num := cache_num; _cache := []; atomic := None |}.

(** [keys] *)
Definition keys (p : t) : list K := OrderedDict.keys (_cache p).

(** The loop of [_check_count]:
    [while len(self._cache) > self._cache_num: self._cache.popitem(last=False)].
    It runs only for a positive bound, so the test fails on an empty dict and
    [popitem] never meets one. *)
Fixpoint popitem_while_over (n : Z) (d : list (K * objref)) : list (K * objref) :=
  match d with
  | [] => []
  | _ :: d' =>
      if (n <? Z.of_nat (length d))%Z then popitem_while_over n d' else d
  end.

(** [_check_count] *)
Definition _check_count (p : t) : t :=
  if (0 <? _cache_num p)%Z
  then with_cache (popitem_while_over (_cache_num p) (_cache p)) p
  else p.

(** Whether the event of the object behind a reference is set. *)
Definition is_loaded (h : list (ThreadSafeObject.t K P)) (o : objref) : bool :=
  match h !! o with
  | Some x => _loaded x
  | None => false
  end.

(** [get]: the lookup, then [wait_for_loading] on what was found. The pool is
    returned as the method leaves it. *)
Definition get (h : list (ThreadSafeObject.t K P)) (key : K) (p : t)
  : outcome (option objref) * t :=
  match OrderedDict.get key (_cache p) with
  | None => (Ret None, p)
  | Some o => ((if is_loaded h o then Ret (Some o) else Block), p)
  end.

(** [set] *)
Definition set (key : K) (obj : objref) (p : t) : t :=
  _check_count (with_cache (OrderedDict.setitem key obj (_cache p)) p).

(** What [pop] returns: the pair of [popitem] when called without a key, else
    the object stored under the key, or None. *)
Inductive popped : Type :=
| Popped_item (kv : K * objref)
| Popped_obj (o : option objref).

(** [pop] *)
Definition pop (key : option K) (p : t) : outcome popped * t :=
  match key with
  | None =>
      match OrderedDict.popitem_first (_cache p) with
      | None => (Raise KeyError, p)
      | Some (kv, d') => (Ret (Popped_item kv), with_cache d' p)
      end
  | Some k =>
      let '(r, d') := OrderedDict.pop k (_cache p) in
      (Ret (Popped_obj r), with_cache d' p)
  end.

(** [acquire], up to the context manager it returns: [get], then
    [move_to_end]. The text of the RuntimeError is not modelled. *)
Definition acquire (h : list (ThreadSafeObject.t K P)) (key : K) (p : t)
  : outcome objref * t :=
  match get h key p with
  | (Ret None, p1) => (Raise (RuntimeError "resource does not exist"), p1)
  | (Ret (Some o), p1) =>
      match OrderedDict.move_to_end key (_cache p1) with
      | None => (Raise KeyError, p1)
      | Some d' => (Ret o, with_cache d' p1)
      end
  | (Raise e, p1) => (Raise e, p1)
  | (Block, p1) => (Block, p1)
  end.

(** [_FaissPool.unload_vector_store]:
    [if cache := self.get(kb_name): self.pop(kb_name)]. *)
Definition unload_vector_store (h : list (ThreadSafeObject.t K P)) (kb_name : K) (p : t)
  : outcome unit * t :=
  match get h kb_name p with
  | (Ret None, p1) => (Ret tt, p1)
  | (Ret (Some _), p1) =>
      match pop (Some kb_name) p1 with
      | (Ret _, p2) => (Ret tt, p2)
      | (Raise e, p2) => (Raise e, p2)
      | (Block, p2) => (Block, p2)
      end
  | (Raise e, p1) => (Raise e, p1)
  | (Block, p1) => (Block, p1)
  end.

(** Entering [with obj.acquire(): ...] as thread [tid]:
    [self._lock.acquire()], then [move_to_end] when the back-reference is set;
    a KeyError there releases the lock again ([finally]). *)
Definition acquire_enter (tid : nat) (o : objref)
  (h : list (ThreadSafeObject.t K P)) (p : t)
  : outcome unit * list (ThreadSafeObject.t K P) * t :=
  match h !! o with
  | None => (Block, h, p)
  | Some x =>
      match RLock.acquire tid (_lock x) with
      | None => (Block, h, p)
      | Some l =>
          if _pool x
          then match OrderedDict.move_to_end (_key x) (_cache p) with
               | Some d' => (Ret tt, <[o := set_lock l x]> h, with_cache d' p)
               | None => (Raise KeyError, h, p)
               end
          else (Ret tt, <[o := set_lock l x]> h, p)
      end
  end.

End pool.
Arguments t : clear implicits.
End CachePool.

(** ** load_embeddings and load_vector_store as a program run by threads *)
Module Machine.
Import ThreadSafeObject CachePool.

(** Which pool the program belongs to: the two differ in what they return. *)
Inductive pool_kind : Type := Embeddings | KBFaiss.

Section machine.
Context {K P A W : Type} `{EqDecision K}.

(** The pool the program runs in. *)
Variable kind : pool_kind.

(** The constructor body (the statements between [self.atomic.release()] and
    [item.obj = ...]) run by thread [tid], one step on the world outside the
    pool: it returns a payload, raises, or never returns (it waits for a lock
    or an event outside this pool). *)
Variable ctor : nat -> K -> A -> W -> W * outcome P.

(** What a caller receives: [self.get(key).obj] from [load_embeddings],
    [self.get((kb_name, vector_name))] from [load_vector_store]. *)
Inductive retval : Type :=
| RetObj (v : option P)
| RetItem (o : option objref).

(** Program points. Line numbers are those of [load_embeddings] in base.py
    and of [KBFaissPool.load_vector_store] in faiss_cache.py. The two waits of
    [get] are program points of their own, as are the two statements a
    [with item.acquire()] runs on entry and the [finally] it runs on exit.
    [self.set(key, item)] is one step: it runs under the pool lock, and the
    statements that run without that lock only read the dict. *)
Inductive pc : Type :=
| P_atomic_acquire                 (* 211 / 101  self.atomic.acquire() *)
| P_get                            (* 215 / 103  self.get(key): self._cache.get(key) *)
| P_get_wait (o : objref)          (*            ... cache.wait_for_loading() *)
| P_new                            (* 216 / 105  item = ThreadSafeObject(key, pool=self) *)
| P_set (o : objref)               (* 217 / 106  self.set(key, item) *)
| P_lock_acquire (o : objref)      (* 218 / 107  with item.acquire(): self._lock.acquire() *)
| P_move_to_end (o : objref)       (*            ... self._pool._cache.move_to_end(self.key) *)
| P_atomic_release (o : objref)    (* 219 / 108  self.atomic.release() *)
| P_ctor (o : objref)              (* 221-245 / 109-121  the constructor body *)
| P_ctor_wait (o : objref)         (*            ... which never returns *)
| P_set_obj (o : objref) (v : P)   (* 246 / 122  item.obj = ... *)
| P_finish (o : objref)            (* 247 / 123  item.finish_loading() *)
| P_lock_release (o : objref) (e : option exn)
                                   (*            finally: self._lock.release() *)
| P_else_release                   (* 249 / 125  else: self.atomic.release() *)
| P_ret_get                        (* 250 / 126  return self.get(key): self._cache.get(key) *)
| P_ret_wait (o : objref)          (*            ... cache.wait_for_loading() *)
| P_done (r : retval)
| P_raised (e : exn).

(** What all threads share. [ctor_calls] counts the runs of the constructor
    body, a run that never returns included; the program never reads it. *)
Record shared : Type := mk_shared {
  pool : CachePool.t K;
  heap : list (ThreadSafeObject.t K P);
  world : W;
  ctor_calls : nat
}.

Definition with_pool (p : CachePool.t K) (g : shared) : shared :=
  {| pool := p; heap := heap g; world := world g; ctor_calls := ctor_calls g |}.

Definition with_heap (h : list (ThreadSafeObject.t K P)) (g : shared) : shared :=
  {| pool := pool g; heap := h; world := world g; ctor_calls := ctor_calls g |}.

Definition constructed (w : W) (g : shared) : shared :=
  {| pool := pool g; heap := heap g; world := w; ctor_calls := S (ctor_calls g) |}.

(** The value of the return statement once [get] has found object [o]. *)
Definition ret_of (h : list (ThreadSafeObject.t K P)) (o : objref) : retval :=
  match kind with
  | Embeddings => RetObj (x ← h !! o; _obj x)
  | KBFaiss => RetItem (Some o)
  end.

(** One statement of thread [tid], called with [key] and [arg]. [None]: the
    thread cannot move (it waits for a lock or an event, or it has finished). *)
Definition lstep (tid : nat) (key : K) (arg : A) (c : pc) (g : shared)
  : option (pc * shared) :=
  match c with
  | P_atomic_acquire =>
      match RLock.acquire tid (atomic (pool g)) with
      | Some l => Some (P_get, with_pool (with_atomic l (pool g)) g)
      | None => None
      end
  | P_get =>
      match OrderedDict.get key (_cache (pool g)) with
      | None => Some (P_new, g)
      | Some o => Some (P_get_wait o, g)
      end
  | P_get_wait o =>
      if is_loaded (heap g) o then Some (P_else_release, g) else None
  | P_new =>
      Some (P_set (length (heap g)),
            with_heap (heap g ++ [ThreadSafeObject.__init__ key]) g)
  | P_set o =>
      Some (P_lock_acquire o, with_pool (CachePool.set key o (pool g)) g)
  | P_lock_acquire o =>
      match heap g !! o with
      | None => None
      | Some x =>
          match RLock.acquire tid (_lock x) with
          | Some l => Some (P_move_to_end o, with_heap (<[o := set_lock l x]> (heap g)) g)
          | None => None
          end
      end
  | P_move_to_end o =>
      match heap g !! o with
      | None => None
      | Some x =>
          if _pool x
          then match OrderedDict.move_to_end (_key x) (_cache (pool g)) with
               | Some d' => Some (P_atomic_release o, with_pool (with_cache d' (pool g)) g)
               | None => Some (P_lock_release o (Some KeyError), g)
               end
          else Some (P_atomic_release o, g)
      end
  | P_atomic_release o =>
      match RLock.release tid (atomic (pool g)) with
      | Some l => Some (P_ctor o, with_pool (with_atomic l (pool g)) g)
      | None => Some (P_lock_release o (Some (RuntimeError "cannot release un-acquired lock")), g)
      end
  | P_ctor o =>
      match ctor tid key arg (world g) with
      | (w', Ret v) => Some (P_set_obj o v, constructed w' g)
      | (w', Raise e) => Some (P_lock_release o (Some e), constructed w' g)
      | (w', Block) => Some (P_ctor_wait o, constructed w' g)
      end
  | P_ctor_wait _ => None
  | P_set_obj o v =>
      Some (P_finish o, with_heap (alter (set_obj (Some v)) o (heap g)) g)
  | P_finish o =>
      Some (P_lock_release o None, with_heap (alter finish_loading o (heap g)) g)
  | P_lock_release o e =>
      match heap g !! o with
      | None => None
      | Some x =>
          match RLock.release tid (_lock x) with
          | Some l =>
              Some (match e with
                    | None => P_ret_get
                    | Some e' => P_raised e'
                    end,
                    with_heap (<[o := set_lock l x]> (heap g)) g)
          | None => Some (P_raised (RuntimeError "cannot release un-acquired lock"), g)
          end
      end
  | P_else_release =>
      match RLock.release tid (atomic (pool g)) with
      | Some l => Some (P_ret_get, with_pool (with_atomic l (pool g)) g)
      | None => Some (P_raised (RuntimeError "cannot release un-acquired lock"), g)
      end
  | P_ret_get =>
      match OrderedDict.get key (_cache (pool g)) with
      | None =>
          Some (match kind with
                | Embeddings => P_raised AttributeError
                | KBFaiss => P_done (RetItem None)
                end, g)
      | Some o => Some (P_ret_wait o, g)
      end
  | P_ret_wait o =>
      if is_loaded (heap g) o then Some (P_done (ret_of (heap g) o), g) else None
  | P_done _ => None
  | P_raised _ => None
  end.

(** A thread is a call in progress. *)
Record thread : Type := mk_thread {
  th_key : K;
  th_arg : A;
  th_pc : pc
}.

Definition at_pc (c : pc) (t : thread) : thread :=
  {| th_key := th_key t; th_arg := th_arg t; th_pc := c |}.

(** A call that has not started yet. *)
Definition call (key : K) (arg : A) : thread :=
  {| th_key := key; th_arg := arg; th_pc := P_atomic_acquire |}.

Record state : Type := mk_state {
  sh : shared;
  threads : list thread
}.

(** Thread [i] executes its next statement. *)
Definition tstep (i : nat) (s : state) : option state :=
  match threads s !! i with
  | None => None
  | Some t =>
      match lstep i (th_key t) (th_arg t) (th_pc t) (sh s) with
      | None => None
      | Some (c', g') => Some {| sh := g'; threads := <[i := at_pc c' t]> (threads s) |}
      end
  end.

(** Any interleaving: some thread executes its next statement. *)
Definition step (s s' : state) : Prop := exists i, tstep i s = Some s'.

(** No thread can move. *)
Definition stuck (s : state) : Prop := forall i, tstep i s = None.

(** The execution that follows a given schedule; [None] when the schedule
    names a thread that cannot move. *)
Fixpoint run (sched : list nat) (s : state) : option state :=
  match sched with
  | [] => Some s
  | i :: sched' =>
      match tstep i s with
      | Some s' => run sched' s'
      | None => None
      end
  end.

(** A call run by itself as thread [tid], for at most [fuel] statements. The
    program has no loop: fourteen statements reach the end of any path. *)
Fixpoint run_call (fuel : nat) (tid : nat) (t : thread) (g : shared) : thread * shared :=
  match fuel with
  | 0 => (t, g)
  | S fuel' =>
      match lstep tid (th_key t) (th_arg t) (th_pc t) g with
      | Some (c', g') => run_call fuel' tid (at_pc c' t) g'
      | None => (t, g)
      end
  end.

(** The outcome of a call run by itself. *)
Definition call_outcome (tid : nat) (t : thread) (g : shared) : outcome retval * shared :=
  let '(t', g') := run_call 14 tid t g in
  (match th_pc t' with
   | P_done r => Ret r
   | P_raised e => Raise e
   | _ => Block
   end, g').

(** The statements a thread has left on its longest path. *)
Definition weight (c : pc) : nat :=
  match c with
  | P_atomic_acquire => 13
  | P_get => 12
  | P_new => 11
  | P_set _ => 10
  | P_lock_acquire _ => 9
  | P_move_to_end _ => 8
  | P_atomic_release _ => 7
  | P_ctor _ => 6
  | P_ctor_wait _ => 0
  | P_set_obj _ _ => 5
  | P_finish _ => 4
  | P_get_wait _ => 4
  | P_lock_release _ _ => 3
  | P_else_release => 3
  | P_ret_get => 2
  | P_ret_wait _ => 1
  | P_done _ => 0
  | P_raised _ => 0
  end.

Definition measure (s : state) : nat :=
  foldr (fun t n => weight (th_pc t) + n) 0 (threads s).

End machine.
End Machine.

(** Python's [x or default] on an optional string: [None] and the empty
    string are falsy. *)
Definition py_or (x : option string) (default : string) : string :=
  match x with
  | Some EmptyString => default
  | Some s => s
  | None => default
  end.

(** Python's [sub in s] on strings. *)
Fixpoint contains (sub s : string) : bool :=
  if String.prefix sub s then true
  else match s with
       | EmptyString => false
       | String _ s' => contains sub s'
       end.

(** ** class EmbeddingsPool *)
Module EmbeddingsPool.
Import Machine.
Section emb.
Context {P W : Type}.

(** Configuration: [EMBEDDING_MODEL], the value of [embedding_device()],
    [get_model_path] and [CHUNK_SIZE]. *)
Variable EMBEDDING_MODEL : string.
Variable embedding_device : string.
Variable get_model_path : string -> string.
Variable CHUNK_SIZE : Z.

(** The embedding back-ends of langchain, which load a model or raise, and
    the assignment [embeddings.query_instruction = ...]. *)
Variable OpenAIEmbeddings : string -> string -> Z -> W -> W * (P + exn).
Variable HuggingFaceBgeEmbeddings : string -> string -> string -> W -> W * (P + exn).
Variable HuggingFaceEmbeddings : string -> string -> W -> W * (P + exn).
Variable set_query_instruction : string -> P -> P.

(** Lines 221-245 of [load_embeddings]: the back-end is chosen by the model
    name; [key] is [(model, device)]. *)
Definition build (_ : nat) (key : string * string) (_ : unit) (w : W) : W * outcome P :=
  let '(model, device) := key in
  if String.eqb model "text-embedding-ada-002"
  then
    let '(w', r) := OpenAIEmbeddings model (get_model_path model) CHUNK_SIZE w in
    (w', of_sum r)
  else if contains "bge-" model
  then
    let query_instruction :=
      if contains "zh" model then "为这个句子生成表示以用于检索相关文章："
      else if contains "en" model
           then "Represent this sentence for searching relevant passages:"
           else EmptyString in
    match HuggingFaceBgeEmbeddings (get_model_path model) device query_instruction w with
    | (w', inl embeddings) =>
        if String.eqb model "bge-large-zh-noinstruct"
        then (w', Ret (set_query_instruction EmptyString embeddings))
        else (w', Ret embeddings)
    | (w', inr e) => (w', Raise e)
    end
  else
    let '(w', r) := HuggingFaceEmbeddings (get_model_path model) device w in
    (w', of_sum r).

(** Lines 212-214: the key of a call. The caller's [device] is overwritten by
    [embedding_device()] before it is read. *)
Definition key_of (model device : option string) : string * string :=
  let model := py_or model EMBEDDING_MODEL in
  let device := embedding_device in
  (model, device).

(** The call [load_embeddings(model, device)] about to start. *)
Definition load_embeddings (model device : option string) : thread (K:=string * string) (A:=unit) (P:=P) :=
  call (key_of model device) tt.

(** [load_embeddings(model, device)] run by itself as thread [tid]. *)
Definition load_embeddings_outcome (tid : nat) (model device : option string)
  (g : shared (K:=string * string) (P:=P) (W:=W)) : outcome retval * shared :=
  call_outcome Embeddings build tid (load_embeddings model device) g.

End emb.
End EmbeddingsPool.

(** ** class KBFaissPool, over a small file system *)
Module Faiss.
Import Machine.

(** [langchain.schema.Document] *)
Record Document : Type := mk_doc {
  page_content : string;
  metadata : list (string * string)
}.

(** What a file holds: the FAISS index (its number of vectors) or the pickled
    docstore. *)
Inductive file : Type :=
| IndexFile (ntotal : nat)
| PickleFile (docs : list (string * Document)).

(** Directories, and files by path. *)
Record FS : Type := mk_fs {
  dirs : list string;
  files : list (string * file)
}.

(** [os.path.join(a, b)] for a relative [b] *)
Definition path_join (a b : string) : string := a +:+ "/" +:+ b.

(** [os.path.isfile] *)
Definition isfile (fs : FS) (p : string) : bool :=
  bool_decide (is_Some (OrderedDict.get p (files fs))).

(** [os.path.exists] *)
Definition path_exists (fs : FS) (p : string) : bool :=
  bool_decide (p ∈ dirs fs) || isfile fs p.

(** [os.makedirs] *)
Definition makedirs (p : string) (fs : FS) : FS :=
  {| dirs := p :: dirs fs; files := files fs |}.

Definition write_file (p : string) (f : file) (fs : FS) : FS :=
  {| dirs := dirs fs; files := OrderedDict.setitem p f (files fs) |}.

(** A row of the table [knowledge_base] (class [KnowledgeBaseModel]); every
    column but the key may hold NULL. *)
Record KnowledgeBaseModel : Type := mk_kb {
  id : Z;
  kb_name : option string;
  kb_info : option string;
  vs_type : option string;
  embed_model : option string;
  file_count : option Z;
  create_time : option string
}.

(** Lower case of an ASCII letter. *)
Definition lower (c : Ascii.ascii) : Ascii.ascii :=
  let n := Ascii.nat_of_ascii c in
  if (65 <=? n) && (n <=? 90) then Ascii.ascii_of_nat (n + 32) else c.

(** [column.ilike(pattern)]: SQL's LIKE without regard to the case of ASCII
    letters and without escape character; in the pattern [%] stands for any
    sequence of characters and [_] for any one character. *)
Fixpoint ilike (pattern s : string) : bool :=
  match pattern with
  | EmptyString => match s with EmptyString => true | String _ _ => false end
  | String c pattern' =>
      if Ascii.eqb c "%"%char
      then (fix any (s : string) : bool :=
              ilike pattern' s ||
              match s with
              | EmptyString => false
              | String _ s' => any s'
              end) s
      else match s with
           | EmptyString => false
           | String d s' =>
               (Ascii.eqb c "_"%char || Ascii.eqb (lower c) (lower d)) && ilike pattern' s'
           end
  end.

(** [get_kb_detail(kb_name)] of server/db/repository/knowledge_base_repository.py:
    [query(...).filter(kb_name.ilike(kb_name)).first()], the first row whose
    name is like [kb_name]; its columns are the entries of the dict returned,
    and [None] is the empty dict of a name without row. Rows are kept in the
    order the query yields them; failures of the database connection are not
    modelled. *)
Definition get_kb_detail (table : list KnowledgeBaseModel) (name : string)
  : option KnowledgeBaseModel :=
  List.find (fun kb => match kb_name kb with
                       | Some n => ilike name n
                       | None => false
                       end) table.

Section faiss.
(** An embedding function is a value of [E]; [WE] is the world of the
    embedding back-ends. From outside the repository's sources come
    [EmbeddingsFunAdapter(embed_model)], [list_online_embed_models()], the
    configuration and the back-ends of the embeddings pool, and
    [get_vs_path(kb_name, vector_name)] of server/knowledge_base/utils.py. *)
Context {E WE : Type}.
Variable EmbeddingsFunAdapter : string -> E.
Variable list_online_embed_models : list string.
Variable EMBEDDING_MODEL : string.
Variable embedding_device : string.
Variable get_model_path : string -> string.
Variable CHUNK_SIZE : Z.
Variable OpenAIEmbeddings : string -> string -> Z -> WE -> WE * (E + exn).
Variable HuggingFaceBgeEmbeddings : string -> string -> string -> WE -> WE * (E + exn).
Variable HuggingFaceEmbeddings : string -> string -> WE -> WE * (E + exn).
Variable set_query_instruction : string -> E -> E.
Variable get_vs_path : string -> string -> string.

(** What [FAISS.from_documents] needs: the embedding back-end, which embeds
    the texts or raises (the vectors are not modelled), and the identifiers it
    draws ([uuid.uuid4()]). *)
Variable embed_documents : E -> list string -> option exn.
Variable uuid4 : nat -> string.

(** What a constructor of the knowledge-base pool works on: the disk, the
    table of knowledge bases and the module's [embeddings_pool]. *)
Record World : Type := mk_world {
  disk : FS;
  knowledge_base : list KnowledgeBaseModel;
  embeddings_pool : shared (K:=string * string) (P:=E) (W:=WE)
}.

Definition with_disk (fs : FS) (w : World) : World :=
  {| disk := fs; knowledge_base := knowledge_base w;
     embeddings_pool := embeddings_pool w |}.

Definition with_embeddings_pool (ge : shared (K:=string * string) (P:=E) (W:=WE))
  (w : World) : World :=
  {| disk := disk w; knowledge_base := knowledge_base w; embeddings_pool := ge |}.

(** [langchain.vectorstores.faiss.FAISS]: the embedding function (whatever
    was passed as such, Python's [None] included) and [docstore._dict]. *)
Record FAISS : Type := mk_faiss {
  embedding_function : option E;
  docstore : list (string * Document)
}.

(** [FAISS.from_documents(docs, embeddings, ...)]: the texts are embedded,
    then every document is stored under a fresh identifier. *)
Definition from_documents (docs : list Document) (embeddings : E) : FAISS + exn :=
  match embed_documents embeddings (map page_content docs) with
  | Some e => inr e
  | None =>
      inl {| embedding_function := Some embeddings;
             docstore := zip (map uuid4 (seq 0 (length docs))) docs |}
  end.

(** [vector_store.delete(ids)]: ValueError when an identifier is unknown,
    else the documents are removed. *)
Definition delete (ids : list string) (vs : FAISS) : FAISS + exn :=
  if forallb (fun i => bool_decide (i ∈ map fst (docstore vs))) ids
  then inl {| embedding_function := embedding_function vs;
              docstore := filter (fun kv => fst kv ∉ ids) (docstore vs) |}
  else inr ValueError.

(** [vector_store.save_local(path)]: the folder is created when missing, then
    the index and the docstore are written. *)
Definition save_local (path : string) (vs : FAISS) (fs : FS) : FS :=
  let fs1 := if bool_decide (path ∈ dirs fs) then fs else makedirs path fs in
  write_file (path_join path "index.pkl") (PickleFile (docstore vs))
    (write_file (path_join path "index.faiss") (IndexFile (length (docstore vs))) fs1).

(** [FAISS.load_local(path, embeddings, ...)] *)
Definition load_local (path : string) (embeddings : option E) (fs : FS) : FAISS + exn :=
  match OrderedDict.get (path_join path "index.faiss") (files fs),
        OrderedDict.get (path_join path "index.pkl") (files fs) with
  | Some (IndexFile _), Some (PickleFile docs) =>
      inl {| embedding_function := embeddings; docstore := docs |}
  | _, _ => inr (RuntimeError "could not read the index")
  end.

(** [embeddings_pool.load_embeddings(model=embed_model, device=embed_device)]
    called by thread [tid] from inside a constructor of the knowledge-base
    pool: the call of [EmbeddingsPool] run to its end on the embeddings pool.
    It returns the payload of the cached object (Python's [None] when the
    object has none), raises, or never returns. ([load_embeddings] returns
    [.obj], a [RetObj]; the case of [RetItem] is that of the other pool.) *)
Definition pool_load_embeddings (tid : nat) (model : option string) (device : string)
  (ge : shared (K:=string * string) (P:=E) (W:=WE))
  : outcome (option E) * shared (K:=string * string) (P:=E) (W:=WE) :=
  match EmbeddingsPool.load_embeddings_outcome EMBEDDING_MODEL embedding_device
          get_model_path CHUNK_SIZE OpenAIEmbeddings HuggingFaceBgeEmbeddings
          HuggingFaceEmbeddings set_query_instruction tid model (Some device) ge with
  | (Ret (RetObj v), ge') => (Ret v, ge')
  | (Ret (RetItem _), ge') => (Raise AttributeError, ge')
  | (Raise e, ge') => (Raise e, ge')
  | (Block, ge') => (Block, ge')
  end.

(** [CachePool.load_kb_embeddings]: [kb_detail.get("embed_model",
    default_embed_model)] is the default only when the dict has no such
    entry; a row whose column is NULL gives [None], which is no on-line model
    and goes to the embeddings pool, where [model or EMBEDDING_MODEL] replaces
    it. *)
Definition load_kb_embeddings (tid : nat) (kb_name embed_device default_embed_model : string)
  (w : World) : outcome (option E) * World :=
  let embed_model :=
    match get_kb_detail (knowledge_base w) kb_name with
    | Some kb_detail => embed_model kb_detail
    | None => Some default_embed_model
    end in
  if bool_decide (embed_model ∈ map Some list_online_embed_models)
  then (Ret (EmbeddingsFunAdapter <$> embed_model), w)
  else
    let '(r, ge) := pool_load_embeddings tid embed_model embed_device (embeddings_pool w) in
    (r, with_embeddings_pool ge w).

(** [_FaissPool.new_vector_store] *)
Definition new_vector_store (embed_model embed_device : string) : FAISS + exn :=
  let embeddings := EmbeddingsFunAdapter embed_model in
  let doc := {| page_content := "init"; metadata := [] |} in
  match from_documents [doc] embeddings with
  | inl vector_store =>
      let ids := map fst (docstore vector_store) in
      delete ids vector_store
  | inr e => inr e
  end.

(** Lines 109-121 of [KBFaissPool.load_vector_store] run by thread [tid];
    [key] is [(kb_name, vector_name)] and [arg] is
    [(create, embed_model, embed_device)]. *)
Definition build (tid : nat) (key : string * string) (arg : bool * string * string)
  (w : World) : World * outcome FAISS :=
  let '(kb_name, vector_name) := key in
  let '(create, embed_model, embed_device) := arg in
  let vs_path := get_vs_path kb_name vector_name in
  if isfile (disk w) (path_join vs_path "index.faiss")
  then
    match load_kb_embeddings tid kb_name embed_device embed_model w with
    | (Ret embeddings, w') => (w', of_sum (load_local vs_path embeddings (disk w')))
    | (Raise e, w') => (w', Raise e)
    | (Block, w') => (w', Block)
    end
  else if create
  then
    let fs1 := if negb (path_exists (disk w) vs_path)
               then makedirs vs_path (disk w) else disk w in
    match new_vector_store embed_model embed_device with
    | inl vector_store =>
        (with_disk (save_local vs_path vector_store fs1) w, Ret vector_store)
    | inr e => (with_disk fs1 w, Raise e)
    end
  else (w, Raise (RuntimeError ("knowledge base " +:+ kb_name +:+ " not exist."))).

(** The call [load_vector_store(kb_name, vector_name, create, embed_model,
    embed_device)] about to start; line 102 fixes the key. *)
Definition load_vector_store (kb_name : string) (vector_name : option string)
  (create : bool) (embed_model embed_device : string)
  : thread (K:=string * string) (A:=bool * string * string) (P:=FAISS) :=
  let vector_name := py_or vector_name embed_model in
  call (kb_name, vector_name) (create, embed_model, embed_device).

(** [load_vector_store] run by itself as thread [tid]. *)
Definition load_vector_store_outcome (tid : nat) (kb_name : string)
  (vector_name : option string) (create : bool) (embed_model embed_device : string)
  (g : shared (K:=string * string) (P:=FAISS) (W:=World)) : outcome retval * shared :=
  call_outcome KBFaiss build tid
    (load_vector_store kb_name vector_name create embed_model embed_device) g.

End faiss.
End Faiss.

(** ** Sequences of pool operations *)
Module Ops.
Import ThreadSafeObject CachePool.
Section ops.
Context {K P : Type} `{EqDecision K}.

(** The methods a client of the pool calls. [Op_enter] is
    [with obj.acquire(): ...] on an object the client holds; [Op_objects]
    stands for whatever clients do to the objects themselves (payloads,
    events, locks) between two calls. *)
Inductive op : Type :=
| Op_set (key : K) (obj : objref)
| Op_get (key : K)
| Op_pop (key : option K)
| Op_acquire (key : K)
| Op_enter (tid : nat) (o : objref)
| Op_unload (key : K)
| Op_keys
| Op_objects (h : list (ThreadSafeObject.t K P)).

(** The objects and the pool after one operation, whatever it returned. *)
Definition apply (x : op) (st : list (ThreadSafeObject.t K P) * CachePool.t K)
  : list (ThreadSafeObject.t K P) * CachePool.t K :=
  let '(h, p) := st in
  match x with
  | Op_set key obj => (h, set key obj p)
  | Op_get key => (h, snd (get h key p))
  | Op_pop key => (h, snd (pop key p))
  | Op_acquire key => (h, snd (acquire h key p))
  | Op_enter tid o => let '(_, h', p') := acquire_enter tid o h p in (h', p')
  | Op_unload key => (h, snd (unload_vector_store h key p))
  | Op_keys => (h, p)
  | Op_objects h' => (h', p)
  end.

Definition apply_all (xs : list op) (st : list (ThreadSafeObject.t K P) * CachePool.t K)
  : list (ThreadSafeObject.t K P) * CachePool.t K :=
  foldl (fun st x => apply x st) st xs.

End ops.
End Ops.

(** ** Notions used to state the properties *)

(** The number of entries the capacity check removes after an insertion that
    leaves [len] entries. *)
Definition evicted_count (n : Z) (len : nat) : nat :=
  if (0 <? n)%Z then len - Z.to_nat n else 0.

(** A pool with bound [n] that respects it. *)
Definition bounded {K : Type} (n : Z) (p : CachePool.t K) : Prop :=
  CachePool._cache_num p = n /\ (Z.of_nat (length (CachePool._cache p)) <= n)%Z.

(** The placeholder once the constructor has returned [v] and the lock is
    released, and as a raising constructor leaves it. *)
Definition loaded_object {K P : Type} (key : K) (v : P) : ThreadSafeObject.t K P :=
  {| ThreadSafeObject._obj := Some v; ThreadSafeObject._key := key;
     ThreadSafeObject._pool := true; ThreadSafeObject._lock := None;
     ThreadSafeObject._loaded := true |}.

Definition abandoned_object {K P : Type} (key : K) : ThreadSafeObject.t K P :=
  {| ThreadSafeObject._obj := None; ThreadSafeObject._key := key;
     ThreadSafeObject._pool := true; ThreadSafeObject._lock := None;
     ThreadSafeObject._loaded := false |}.

(** The pool after a call that missed: the key was set, the capacity check
    ran, the key was moved to the end, and the pool lock is free again. *)
Definition pool_after_miss {K : Type} `{EqDecision K} (key : K) (o : objref)
  (p : CachePool.t K) : CachePool.t K :=
  {| CachePool._cache_num := CachePool._cache_num p;
     CachePool._cache :=
       OrderedDict.remove key (CachePool._cache (CachePool.set key o p)) ++ [(key, o)];
     CachePool.atomic := None |}.

(** ** The invariant of N concurrent calls for one key *)
Module OneKey.
Import ThreadSafeObject CachePool Machine.
Section inv.
Context {K P A W : Type} `{EqDecision K}.
Variable kind : pool_kind.
Variable k : K.

Implicit Types (g : shared (K:=K) (P:=P) (W:=W)) (o : objref) (c : pc (P:=P)).
Implicit Types (s : state (K:=K) (P:=P) (A:=A) (W:=W)).

(** A field of the object behind a reference. *)
Definition fld {B : Type} (f : ThreadSafeObject.t K P -> B) g o : option B :=
  f <$> heap g !! o.

(** The key is cached under object [o]; the key is not cached. *)
Definition present g o : Prop := OrderedDict.get k (_cache (pool g)) = Some o.
Definition absent g : Prop := OrderedDict.get k (_cache (pool g)) = None.

(** Thread [i] holds the pool-wide lock, once. *)
Definition holds g (i : nat) : Prop := atomic (pool g) = Some (i, 1).

(** The placeholder as [ThreadSafeObject(key, pool=self)] leaves it. *)
Definition fresh g o : Prop :=
  fld _lock g o = Some None /\ fld _loaded g o = Some false /\
  fld _pool g o = Some true /\ fld _key g o = Some k.

(** The placeholder while thread [i] constructs its payload. *)
Definition building g (i : nat) o : Prop :=
  fld _lock g o = Some (Some (i, 1)) /\ fld _loaded g o = Some false /\
  fld _pool g o = Some true /\ fld _key g o = Some k.

(** The object is loaded and carries payload [v]. *)
Definition ready g o (v : P) : Prop :=
  fld _loaded g o = Some true /\ fld _obj g o = Some (Some v).

(** What every caller receives once the key is cached under [o] with [v]. *)
Definition result o (v : P) : retval (P:=P) :=
  match kind with
  | Embeddings => RetObj (Some v)
  | KBFaiss => RetItem (Some o)
  end.

(** What is known about the shared state when thread [i] is at [c]. *)
Definition thr_ok g (i : nat) c : Prop :=
  match c with
  | P_atomic_acquire => True
  | P_get => holds g i
  | P_get_wait o => holds g i /\ present g o
  | P_new => holds g i /\ absent g
  | P_set o => holds g i /\ absent g /\ fresh g o
  | P_lock_acquire o => holds g i /\ present g o /\ fresh g o /\ ctor_calls g = 0
  | P_move_to_end o => holds g i /\ present g o /\ building g i o /\ ctor_calls g = 0
  | P_atomic_release o => holds g i /\ present g o /\ building g i o /\ ctor_calls g = 0
  | P_ctor o => present g o /\ building g i o /\ ctor_calls g = 0
  | P_ctor_wait _ => False
  | P_set_obj o v => present g o /\ building g i o /\ ctor_calls g = 1
  | P_finish o =>
      present g o /\ building g i o /\ ctor_calls g = 1 /\
      exists v, fld _obj g o = Some (Some v)
  | P_lock_release o e =>
      e = None /\ present g o /\ fld _lock g o = Some (Some (i, 1)) /\
      exists v, ready g o v
  | P_else_release => holds g i /\ exists o v, present g o /\ ready g o v
  | P_ret_get => exists o v, present g o /\ ready g o v
  | P_ret_wait o => present g o /\ exists v, ready g o v
  | P_done r => exists o v, present g o /\ ready g o v /\ r = result o v
  | P_raised _ => False
  end.

(** The program points between [self.atomic.acquire()] and the matching
    [self.atomic.release()]. *)
Definition holder c : bool :=
  match c with
  | P_get | P_get_wait _ | P_new | P_set _ | P_lock_acquire _
  | P_move_to_end _ | P_atomic_release _ | P_else_release => true
  | _ => false
  end.

(** The program points of the thread that inserted placeholder [o], up to
    [finish_loading]. *)
Definition builder o c : bool :=
  match c with
  | P_lock_acquire o' | P_move_to_end o' | P_atomic_release o' | P_ctor o'
  | P_set_obj o' _ | P_finish o' => bool_decide (o' = o)
  | _ => false
  end.

Record Inv s : Prop := mk_inv {
  inv_threads : forall i t, threads s !! i = Some t ->
      th_key t = k /\ thr_ok (sh s) i (th_pc t);
  inv_atomic : forall j n, atomic (pool (sh s)) = Some (j, n) ->
      n = 1 /\ exists t, threads s !! j = Some t /\ holder (th_pc t) = true;
  inv_absent : absent (sh s) -> ctor_calls (sh s) = 0;
  inv_present : forall o, present (sh s) o ->
      (ctor_calls (sh s) = 1 /\ exists v, ready (sh s) o v) \/
      (exists b t, threads s !! b = Some t /\ builder o (th_pc t) = true)
}.

(** N calls for key [k], none started, on a pool that does not cache [k] and
    whose lock is free. *)
Record Init s : Prop := mk_init {
  init_some : threads s <> [];
  init_calls : forall i t, threads s !! i = Some t -> t = call k (th_arg t);
  init_absent : absent (sh s);
  init_atomic : atomic (pool (sh s)) = None;
  init_calls0 : ctor_calls (sh s) = 0
}.

(** Every thread has returned the cached handle. *)
Definition all_returned s o (v : P) : Prop :=
  forall i t, threads s !! i = Some t -> th_pc t = P_done (result o v).

(** The constructor returns a payload for key [k]: as long as it has not
    run, it would return for every caller, run by that caller with its
    argument in the world as it is. *)
Definition ctor_returns (ctor : nat -> K -> A -> W -> W * outcome P) s : Prop :=
  ctor_calls (sh s) = 0 ->
  forall i t, threads s !! i = Some t ->
    exists w' v, ctor i k (th_arg t) (world (sh s)) = (w', Ret v).

End inv.
End OneKey.

(** ** Concrete pools used in examples *)
Module Demo.
Import ThreadSafeObject CachePool Machine.

(** A constructor that returns a payload named after the key. *)
Definition ctor_ok (_ : nat) (k : string) (_ : unit) (w : unit) : unit * outcome string :=
  (w, Ret ("handle:" +:+ k)).

(** A constructor that raises. *)
Definition ctor_fail (_ : nat) (k : string) (_ : unit) (w : unit) : unit * outcome string :=
  (w, Raise (OtherError "model files missing")).

(** An empty pool with bound [n] and no object yet. *)
Definition fresh (n : Z) : shared (K:=string) (P:=string) (W:=unit) :=
  {| pool := {| _cache_num := n; _cache := []; atomic := None |};
     heap := []; world := tt; ctor_calls := 0 |}.

(** One call per key of [ks], none started, on an empty pool. *)
Definition start (n : Z) (ks : list string) : state (A:=unit) :=
  {| sh := fresh n; threads := map (fun k => call k tt) ks |}.

(** Thread 0 runs up to its constructor, then thread 1 runs up to [set]. *)
Definition sched_evict : list nat := [0; 0; 0; 0; 0; 0; 0; 1; 1; 1].

(** Thread 0 runs to its end, then thread 1 runs as far as it can. *)
Definition sched_fail : list nat := [0; 0; 0; 0; 0; 0; 0; 0; 0; 1; 1].

(** A loaded object whose lock is held by thread [owner]. *)
Definition in_use (k : string) (owner : nat) : ThreadSafeObject.t string string :=
  {| _obj := Some "handle"; _key := k; _pool := true;
     _lock := Some (owner, 1); _loaded := true |}.

(** A loaded object nobody uses. *)
Definition idle (k : string) : ThreadSafeObject.t string string :=
  {| _obj := Some "handle"; _key := k; _pool := true;
     _lock := None; _loaded := true |}.

(** A placeholder whose construction has not finished. *)
Definition loading (k : string) (owner : nat) : ThreadSafeObject.t string string :=
  {| _obj := None; _key := k; _pool := true;
     _lock := Some (owner, 1); _loaded := false |}.

Definition pool_of (n : Z) (d : list (string * objref)) : CachePool.t string :=
  {| _cache_num := n; _cache := d; atomic := None |}.

(** Where [sched_evict] leads with a constructor that returns, on keys A and
    B and bound 1: thread 0 is about to construct A, thread 1 about to set B. *)
Definition evicting : state (K:=string) (P:=string) (A:=unit) (W:=unit) :=
  {| sh := {| pool := {| _cache_num := 1; _cache := [("A", 0)]; atomic := Some (1, 1) |};
              heap := [loading "A" 0; ThreadSafeObject.__init__ "B"];
              world := tt; ctor_calls := 0 |};
     threads := [at_pc (P_ctor 0) (call "A" tt); at_pc (P_set 1) (call "B" tt)] |}.

(** Where [sched_fail] leads with a constructor that raises, both threads
    asking for A. *)
Definition blocked : state (K:=string) (P:=string) (A:=unit) (W:=unit) :=
  {| sh := {| pool := {| _cache_num := 1; _cache := [("A", 0)]; atomic := Some (1, 1) |};
              heap := [abandoned_object "A"];
              world := tt; ctor_calls := 1 |};
     threads := [at_pc (P_raised (OtherError "model files missing")) (call "A" tt);
                 at_pc (P_get_wait 0) (call "A" tt)] |}.

(** Thread 0 runs up to its constructor, thread 1 up to the wait in [get];
    thread 0 finishes, then thread 1. *)
Definition sched_share : list nat :=
  [0; 0; 0; 0; 0; 0; 0; 1; 1; 0; 0; 0; 0; 0; 0; 1; 1; 1; 1].

(** Where [sched_share] leads with a constructor that returns, both threads
    asking for A. *)
Definition shared_done : state (K:=string) (P:=string) (A:=unit) (W:=unit) :=
  {| sh := {| pool := {| _cache_num := 1; _cache := [("A", 0)]; atomic := None |};
              heap := [loaded_object "A" "handle:A"];
              world := tt; ctor_calls := 1 |};
     threads := [at_pc (P_done (RetObj (Some "handle:A"))) (call "A" tt);
                 at_pc (P_done (RetObj (Some "handle:A"))) (call "A" tt)] |}.

(** The pool after one call for A whose constructor raised. *)
Definition after_failure : shared (K:=string) (P:=string) (W:=unit) :=
  {| pool := {| _cache_num := 1; _cache := [("A", 0)]; atomic := None |};
     heap := [abandoned_object "A"]; world := tt; ctor_calls := 1 |}.

(** Embedding back-ends that always load: the handle names the model path,
    the device and the query instruction. *)
Definition openai (model api_key : string) (chunk_size : Z) (w : unit)
  : unit * (string + exn) := (w, inl ("openai:" +:+ model)).

Definition hf_bge (model_name device query_instruction : string) (w : unit)
  : unit * (string + exn) :=
  (w, inl ("bge:" +:+ model_name +:+ "@" +:+ device +:+ "?" +:+ query_instruction)).

Definition hf (model_name device : string) (w : unit) : unit * (string + exn) :=
  (w, inl ("hf:" +:+ model_name +:+ "@" +:+ device)).

Definition without_instruction (query_instruction handle : string) : string :=
  handle +:+ "!" +:+ query_instruction.

(** The constructor body of the embeddings pool over these back-ends. *)
Definition emb_build : nat -> string * string -> unit -> unit -> unit * outcome string :=
  EmbeddingsPool.build (fun m => "/models/" +:+ m) 250
    openai hf_bge hf without_instruction.

(** Three callers of [load_embeddings] for one model, each with another
    device argument, on an empty embeddings pool (bound 1); the configured
    model is m3e-base, the configured device cpu. *)
Definition emb_start : state (K:=string * string) (P:=string) (A:=unit) (W:=unit) :=
  {| sh := {| pool := {| _cache_num := 1; _cache := []; atomic := None |};
              heap := []; world := tt; ctor_calls := 0 |};
     threads := [EmbeddingsPool.load_embeddings "m3e-base" "cpu" (Some "bge-large-zh") (Some "cuda");
                 EmbeddingsPool.load_embeddings "m3e-base" "cpu" (Some "bge-large-zh") None;
                 EmbeddingsPool.load_embeddings "m3e-base" "cpu" (Some "bge-large-zh") (Some "mps")] |}.

(** A knowledge-base pool over an empty disk: embedding functions are named
    by their model, every knowledge base keeps the default model. *)
Definition vs_path (kb_name vector_name : string) : string :=
  "/knowledge_base/" +:+ kb_name +:+ "/vector_store/" +:+ vector_name.

Definition uuid (n : nat) : string := "doc-id".

(** The module's [embeddings_pool] before its first use. *)
Definition no_embeddings : shared (K:=string * string) (P:=string) (W:=unit) :=
  {| pool := {| _cache_num := 1; _cache := []; atomic := None |};
     heap := []; world := tt; ctor_calls := 0 |}.

(** The world of a process that starts on the disk [fs], with no knowledge
    base in the table. *)
Definition world_on (fs : Faiss.FS) : Faiss.World (E:=string) (WE:=unit) :=
  {| Faiss.disk := fs; Faiss.knowledge_base := []; Faiss.embeddings_pool := no_embeddings |}.

Definition empty_disk
  : shared (K:=string * string) (P:=Faiss.FAISS (E:=string))
      (W:=Faiss.World (E:=string) (WE:=unit)) :=
  {| pool := {| _cache_num := 1; _cache := []; atomic := None |};
     heap := []; world := world_on {| Faiss.dirs := []; Faiss.files := [] |};
     ctor_calls := 0 |}.

(** The constructor body of the knowledge-base pool over these back-ends:
    no model is on line, the configured model is m3e-base, the configured
    device cpu, and the embedding back-end embeds every text. *)
Definition kb_build
  : nat -> string * string -> bool * string * string ->
    Faiss.World (E:=string) (WE:=unit) ->
    Faiss.World (E:=string) (WE:=unit) * outcome (Faiss.FAISS (E:=string)) :=
  Faiss.build (fun m => m) [] "m3e-base" "cpu" (fun m => "/models/" +:+ m) 250
    openai hf_bge hf without_instruction vs_path (fun _ _ => None) uuid.

(** Two callers of [load_vector_store] for the vector store default of kb1,
    both with create=True, on an empty knowledge-base pool over an empty
    disk. *)
Definition kb_start
  : state (K:=string * string) (P:=Faiss.FAISS (E:=string)) (A:=bool * string * string)
      (W:=Faiss.World (E:=string) (WE:=unit)) :=
  {| sh := empty_disk;
     threads := [Faiss.load_vector_store "kb1" (Some "default") true "bge-large-zh" "cpu";
                 Faiss.load_vector_store "kb1" (Some "default") true "m3e-base" "cuda"] |}.

(** The same two callers with create=False. *)
Definition kb_start_nocreate
  : state (K:=string * string) (P:=Faiss.FAISS (E:=string)) (A:=bool * string * string)
      (W:=Faiss.World (E:=string) (WE:=unit)) :=
  {| sh := empty_disk;
     threads := [Faiss.load_vector_store "kb1" (Some "default") false "bge-large-zh" "cpu";
                 Faiss.load_vector_store "kb1" (Some "default") false "bge-large-zh" "cpu"] |}.

(** Where [sched_fail] leads from there: the constructor of thread 0 has
    raised, thread 1 waits for the placeholder. *)
Definition kb_not_found
  : state (K:=string * string) (P:=Faiss.FAISS (E:=string)) (A:=bool * string * string)
      (W:=Faiss.World (E:=string) (WE:=unit)) :=
  {| sh := {| pool := {| _cache_num := 1; _cache := [(("kb1", "default"), 0)];
                         atomic := Some (1, 1) |};
              heap := [abandoned_object ("kb1", "default")];
              world := world_on {| Faiss.dirs := []; Faiss.files := [] |};
              ctor_calls := 1 |};
     threads :=
       [at_pc (P_raised (RuntimeError "knowledge base kb1 not exist."))
          (Faiss.load_vector_store "kb1" (Some "default") false "bge-large-zh" "cpu");
        at_pc (P_get_wait 0)
          (Faiss.load_vector_store "kb1" (Some "default") false "bge-large-zh" "cpu")] |}.

End Demo.

(** ** Leaving a with-block *)
Module WithAcquire.
Import ThreadSafeObject.
Section exit.
Context {K P : Type}.

(** Leaving [with obj.acquire(): ...] as thread [tid]:
    [finally: self._lock.release()]. *)
Definition acquire_exit (tid : nat) (o : objref) (h : list (ThreadSafeObject.t K P))
  : outcome unit * list (ThreadSafeObject.t K P) :=
  match h !! o with
  | None => (Block, h)
  | Some x =>
      match RLock.release tid (_lock x) with
      | Some l => (Ret tt, <[o := set_lock l x]> h)
      | None => (Raise (RuntimeError "cannot release un-acquired lock"), h)
      end
  end.

End exit.

(** A lock as [threading.RLock] keeps it: an owned lock has been acquired at
    least once. *)
Definition counted (l : RLock.t) : bool :=
  match l with
  | Some (_, 0) => false
  | _ => true
  end.

End WithAcquire.

(** ** The methods of ThreadSafeFaiss *)
Module ThreadSafeFaiss.
Import ThreadSafeObject CachePool Faiss WithAcquire.
Section tsf.
Context {K E : Type} `{EqDecision K}.

(** [os.path.isdir] *)
Definition isdir (fs : FS) (p : string) : bool := bool_decide (p ∈ dirs fs).

(** [docs_count]: [len(self._obj.docstore._dict)]; AttributeError on an
    object without payload. *)
Definition docs_count (o : objref) (h : list (ThreadSafeObject.t K (FAISS (E:=E))))
  : outcome nat :=
  match h !! o with
  | None => Block
  | Some x =>
      match _obj x with
      | Some vs => Ret (length (docstore vs))
      | None => Raise AttributeError
      end
  end.

(** [save(path, create_path)]: inside [with self.acquire()], the folder is
    made when it is missing and [create_path] is set, then the store is
    written with [save_local]; the lock is released on every way out. *)
Definition save (tid : nat) (o : objref) (path : string) (create_path : bool)
  (h : list (ThreadSafeObject.t K (FAISS (E:=E)))) (p : CachePool.t K) (fs : FS)
  : outcome unit * list (ThreadSafeObject.t K (FAISS (E:=E))) * CachePool.t K * FS :=
  match acquire_enter tid o h p with
  | (Ret _, h1, p1) =>
      let fs1 := if negb (isdir fs path) && create_path then makedirs path fs else fs in
      match h1 !! o with
      | Some {| _obj := Some vs |} =>
          match acquire_exit tid o h1 with
          | (Ret _, h2) => (Ret tt, h2, p1, save_local path vs fs1)
          | (Raise e, h2) => (Raise e, h2, p1, save_local path vs fs1)
          | (Block, h2) => (Block, h2, p1, save_local path vs fs1)
          end
      | _ =>
          match acquire_exit tid o h1 with
          | (Block, h2) => (Block, h2, p1, fs1)
          | (_, h2) => (Raise AttributeError, h2, p1, fs1)
          end
      end
  | (Raise e, h1, p1) => (Raise e, h1, p1, fs)
  | (Block, h1, p1) => (Block, h1, p1, fs)
  end.

(** What [clear] returns: the empty list it starts with, or what
    [vector_store.delete] returned. *)
Inductive cleared : Type :=
| Cleared_nothing
| Cleared_deleted.

(** [clear()]: inside [with self.acquire()], all identifiers of the docstore
    are deleted when there are any, and the docstore is asserted empty. *)
Definition clear (tid : nat) (o : objref)
  (h : list (ThreadSafeObject.t K (FAISS (E:=E)))) (p : CachePool.t K)
  : outcome cleared * list (ThreadSafeObject.t K (FAISS (E:=E))) * CachePool.t K :=
  match acquire_enter tid o h p with
  | (Ret _, h1, p1) =>
      match h1 !! o with
      | Some {| _obj := Some vs |} =>
          let ids := map fst (docstore vs) in
          match ids with
          | [] =>
              match acquire_exit tid o h1 with
              | (Ret _, h2) => (Ret Cleared_nothing, h2, p1)
              | (Raise e, h2) => (Raise e, h2, p1)
              | (Block, h2) => (Block, h2, p1)
              end
          | _ :: _ =>
              match delete ids vs with
              | inl vs' =>
                  let h1' := alter (set_obj (Some vs')) o h1 in
                  if bool_decide (length (docstore vs') = 0)
                  then match acquire_exit tid o h1' with
                       | (Ret _, h2) => (Ret Cleared_deleted, h2, p1)
                       | (Raise e, h2) => (Raise e, h2, p1)
                       | (Block, h2) => (Block, h2, p1)
                       end
                  else match acquire_exit tid o h1' with
                       | (Block, h2) => (Block, h2, p1)
                       | (_, h2) => (Raise (OtherError "AssertionError"), h2, p1)
                       end
              | inr e =>
                  match acquire_exit tid o h1 with
                  | (Block, h2) => (Block, h2, p1)
                  | (_, h2) => (Raise e, h2, p1)
                  end
              end
          end
      | _ =>
          match acquire_exit tid o h1 with
          | (Block, h2) => (Block, h2, p1)
          | (_, h2) => (Raise AttributeError, h2, p1)
          end
      end
  | (Raise e, h1, p1) => (Raise e, h1, p1)
  | (Block, h1, p1) => (Block, h1, p1)
  end.

End tsf.

(** [_new_ds_search], which replaces [InMemoryDocstore.search]: an unknown
    identifier gives a message; a known one gives its document, whose
    metadata gets the identifier under "id". The document is changed in
    place, so the docstore holds the changed document afterwards. *)
Definition _new_ds_search (search : string) (_dict : list (string * Document))
  : (string + Document) * list (string * Document) :=
  match OrderedDict.get search _dict with
  | None => (inl ("ID " +:+ search +:+ " not found."), _dict)
  | Some doc =>
      let doc' := {| page_content := page_content doc;
                     metadata := OrderedDict.setitem "id" search (metadata doc) |} in
      (inr doc', OrderedDict.setitem search doc' _dict)
  end.

End ThreadSafeFaiss.

(** ** class KBSummaryService over the knowledge-base pool *)
Module KBSummary.
Import ThreadSafeObject CachePool Machine Faiss.

(** The keys a pool is used with: a string, or a pair of strings. A Python
    string never equals a tuple. *)
Inductive pykey : Type :=
| Key_str (s : string)
| Key_tuple (a b : string).

#[global] Instance pykey_eq_dec : EqDecision pykey.
Proof. solve_decision. Defined.




Section service.
Context {E WE : Type}.
Variable EmbeddingsFunAdapter : string -> E.
Variable list_online_embed_models : list string.
Variable EMBEDDING_MODEL : string.
Variable embedding_device : string.
Variable get_model_path : string -> string.
Variable CHUNK_SIZE : Z.
Variable OpenAIEmbeddings : string -> string -> Z -> WE -> WE * (E + exn).
Variable HuggingFaceBgeEmbeddings : string -> string -> string -> WE -> WE * (E + exn).
Variable HuggingFaceEmbeddings : string -> string -> WE -> WE * (E + exn).
Variable set_query_instruction : string -> E -> E.
Variable get_vs_path : string -> string -> string.
Variable embed_documents : E -> list string -> option exn.
Variable uuid4 : nat -> string.

(** Configuration: [KB_ROOT_PATH]; the value of [embedding_device()] above is
    also the default of [load_vector_store]'s [embed_device]. *)
Variable KB_ROOT_PATH : string.

(** The constructor body of [KBFaissPool.load_vector_store] in a pool keyed
    by Python values: it reads [kb_name] and [vector_name], not the key. *)
Definition build (tid : nat) (_ : pykey) (arg : string * string * (bool * string * string))
  (w : World (E:=E) (WE:=WE)) : World (E:=E) (WE:=WE) * outcome (FAISS (E:=E)) :=
  let '(kb_name, vector_name, rest) := arg in
  Faiss.build EmbeddingsFunAdapter list_online_embed_models EMBEDDING_MODEL
    embedding_device get_model_path CHUNK_SIZE OpenAIEmbeddings HuggingFaceBgeEmbeddings
    HuggingFaceEmbeddings set_query_instruction get_vs_path embed_documents uuid4
    tid (kb_name, vector_name) rest w.

(** [kb_faiss_pool.load_vector_store(kb_name, vector_name, create, embed_model,
    embed_device)] about to start: the key is the tuple. *)
Definition pool_load_vector_store (kb_name : string) (vector_name : option string)
  (create : bool) (embed_model embed_device : string)
  : thread (K:=pykey) (A:=string * string * (bool * string * string)) (P:=FAISS (E:=E)) :=
  let vector_name := py_or vector_name embed_model in
  call (Key_tuple kb_name vector_name)
       (kb_name, vector_name, (create, embed_model, embed_device)).

(** [get_kb_path] and [get_vs_path] of the service *)
Definition get_kb_path (kb_name : string) : string := path_join KB_ROOT_PATH kb_name.

Definition service_vs_path (kb_name : string) : string :=
  path_join (get_kb_path kb_name) "summary_vector_store".

(** [KBSummaryService.load_vector_store] *)
Definition load_vector_store (kb_name embed_model : string)
  : thread (K:=pykey) (A:=string * string * (bool * string * string)) (P:=FAISS (E:=E)) :=
  pool_load_vector_store kb_name (Some "summary_vector_store") true embed_model
    embedding_device.

(** [create_kb_summary] (and the end of [__init__]): the folder is made when
    nothing exists at its path. *)
Definition create_kb_summary (kb_name : string) (fs : FS) : FS :=
  if negb (path_exists fs (service_vs_path kb_name))
  then makedirs (service_vs_path kb_name) fs
  else fs.


End service.
End KBSummary.

(** ** The pool lock and the threads *)
Module PoolLock.
Import ThreadSafeObject CachePool Machine.
Section inv.
Context {K P A W : Type}.

(** The pool lock and the threads: a thread in the part that runs under the
    lock owns it, once; and the owner of the lock has started. *)
Definition lock_inv (s : state (K:=K) (P:=P) (A:=A) (W:=W)) : Prop :=
  (forall i t, threads s !! i = Some t -> OneKey.holder (th_pc t) = true ->
     atomic (pool (sh s)) = Some (i, 1)) /\
  (forall j n, atomic (pool (sh s)) = Some (j, n) ->
     n = 1 /\ exists t, threads s !! j = Some t /\ th_pc t <> P_atomic_acquire).

End inv.
End PoolLock.

(** ** Concrete stores and pools used in examples *)
Module Scenes.
Import ThreadSafeObject CachePool Machine Faiss KBSummary.

(** Two documents, and a store that holds them. *)
Definition docs : list (string * Document) :=
  [("id-1", {| page_content := "first"; metadata := [("source", "a.txt")] |});
   ("id-2", {| page_content := "second"; metadata := [] |})].

Definition store : FAISS (E:=string) :=
  {| embedding_function := Some "bge-large-zh"; docstore := docs |}.

(** [Demo.evicting] one statement later: thread 1 has set B, and the
    capacity check has removed A, which thread 0 is about to construct. *)
Definition evicted : state (K:=string) (P:=string) (A:=unit) (W:=unit) :=
  {| sh := {| pool := {| _cache_num := 1; _cache := [("B", 1)]; atomic := Some (1, 1) |};
              heap := [Demo.loading "A" 0; ThreadSafeObject.__init__ "B"];
              world := tt; ctor_calls := 0 |};
     threads := [at_pc (P_ctor 0) (call "A" tt); at_pc (P_lock_acquire 1) (call "B" tt)] |}.

(** A pool with bound 2 that caches A (object 0) and B (object 1), both
    loaded. *)
Definition pool_AB : CachePool.t string := Demo.pool_of 2 [("A", 0); ("B", 1)].

Definition two_loaded : shared (K:=string) (P:=string) (W:=unit) :=
  {| pool := pool_AB; heap := [Demo.idle "A"; Demo.idle "B"]; world := tt;
     ctor_calls := 2 |}.

(** The knowledge-base pool with the store of (kb1, default) cached and
    nothing on disk. *)
Definition kb_loaded : list (ThreadSafeObject.t (string * string) (FAISS (E:=string))) :=
  [loaded_object ("kb1", "default") store].

Definition kb_pool : CachePool.t (string * string) :=
  {| _cache_num := 1; _cache := [(("kb1", "default"), 0)]; atomic := None |}.

Definition no_disk : FS := {| dirs := []; files := [] |}.





End Scenes.

(** * Properties *)

(** ** The ordered dict *)
Section OrderedDictFacts.
Context {K V : Type} `{EqDecision K}.
Implicit Types (k : K) (v : V) (d : list (K * V)).

Lemma od_get_app k d d' :
  OrderedDict.get k (d ++ d') =
  match OrderedDict.get k d with
  | Some v => Some v
  | None => OrderedDict.get k d'
  end.
Proof.
  induction d as [|[k' v'] d IH]; simpl; [done|].
  destruct (decide (k = k')); auto.
Qed.

Lemma od_setitem_new k v d :
  OrderedDict.get k d = None -> OrderedDict.setitem k v d = d ++ [(k, v)].
Proof.
  induction d as [|[k' v'] d IH]; simpl; [done|].
  destruct (decide (k = k')); [done|]. intros Hg. by rewrite IH.
Qed.

Lemma od_setitem_length k v d :
  length (OrderedDict.setitem k v d) =
  match OrderedDict.get k d with
  | Some _ => length d
  | None => S (length d)
  end.
Proof.
  induction d as [|[k' v'] d IH]; simpl; [done|].
  destruct (decide (k = k')); simpl; [done|].
  rewrite IH. by destruct (OrderedDict.get k d).
Qed.

Lemma od_get_setitem k k' v d :
  OrderedDict.get k' (OrderedDict.setitem k v d) =
  if decide (k' = k) then Some v else OrderedDict.get k' d.
Proof.
  induction d as [|[k0 v0] d IH]; simpl.
  - by destruct (decide (k' = k)).
  - destruct (decide (k = k0)) as [->|Hne]; simpl.
    + by destruct (decide (k' = k0)).
    + destruct (decide (k' = k0)) as [->|]; [|done].
      destruct (decide (k0 = k)); congruence.
Qed.

Lemma od_get_remove k k' d :
  OrderedDict.get k' (OrderedDict.remove k d) =
  if decide (k' = k) then None else OrderedDict.get k' d.
Proof.
  induction d as [|[k0 v0] d IH]; simpl.
  - by destruct (decide (k' = k)).
  - destruct (decide (k = k0)) as [->|Hne]; simpl.
    + rewrite IH. destruct (decide (k' = k0)); done.
    + rewrite IH. destruct (decide (k' = k0)) as [->|]; [|done].
      destruct (decide (k0 = k)); congruence.
Qed.

Lemma od_remove_length_le k d : length (OrderedDict.remove k d) <= length d.
Proof.
  induction d as [|[k' v'] d IH]; simpl; [done|].
  destruct (decide (k = k')); simpl; lia.
Qed.

Lemma od_remove_length_lt k v d :
  OrderedDict.get k d = Some v -> S (length (OrderedDict.remove k d)) <= length d.
Proof.
  induction d as [|[k' v'] d IH]; simpl; [done|].
  destruct (decide (k = k')); simpl.
  - intros _. pose proof (od_remove_length_le k d). lia.
  - intros Hg. apply IH in Hg. lia.
Qed.

Lemma od_keys_remove k d :
  OrderedDict.keys (OrderedDict.remove k d) = filter (fun x => x <> k) (OrderedDict.keys d).
Proof.
  unfold OrderedDict.keys.
  induction d as [|[k0 v0] d IH]; simpl; [done|].
  destruct (decide (k = k0)) as [->|Hne]; simpl.
  - by rewrite filter_cons_False by (simpl; tauto).
  - rewrite filter_cons_True by (simpl; congruence). by rewrite IH.
Qed.

Lemma od_move_to_end_length k d d' :
  OrderedDict.move_to_end k d = Some d' -> length d' <= length d.
Proof.
  unfold OrderedDict.move_to_end.
  destruct (OrderedDict.get k d) eqn:Hg; [|done].
  intros [= <-]. rewrite length_app. simpl.
  apply od_remove_length_lt in Hg. lia.
Qed.

Lemma od_get_move_to_end k k' d d' :
  OrderedDict.move_to_end k d = Some d' ->
  OrderedDict.get k' d' = OrderedDict.get k' d.
Proof.
  unfold OrderedDict.move_to_end.
  destruct (OrderedDict.get k d) as [v|] eqn:Hg; [|done].
  intros [= <-]. rewrite od_get_app, od_get_remove. simpl.
  destruct (decide (k' = k)) as [->|Hne]; [done|].
  by destruct (OrderedDict.get k' d).
Qed.

Lemma od_move_to_end_is_Some k v d :
  OrderedDict.get k d = Some v -> is_Some (OrderedDict.move_to_end k d).
Proof. unfold OrderedDict.move_to_end. intros ->. eauto. Qed.

End OrderedDictFacts.

(** ** The capacity check *)
Section CachePoolFacts.
Context {K P : Type} `{EqDecision K}.
Implicit Types (k : K) (o : objref) (d : list (K * objref)) (p : CachePool.t K).
Implicit Types (h : list (ThreadSafeObject.t K P)).

(** The loop pops from the front until the bound is met. *)
Lemma popitem_while_over_drop (n : Z) d :
  CachePool.popitem_while_over n d = drop (length d - Z.to_nat n) d.
Proof.
  induction d as [|kv d IH]; [done|].
  cbn [CachePool.popitem_while_over].
  destruct (Z.ltb_spec n (Z.of_nat (length (kv :: d)))) as [Hlt|Hge].
  - rewrite IH. simpl length in *.
    replace (S (length d) - Z.to_nat n) with (S (length d - Z.to_nat n)) by lia.
    done.
  - simpl length in *.
    replace (S (length d) - Z.to_nat n) with 0 by lia. done.
Qed.

Lemma popitem_while_over_length (n : Z) d :
  (0 <= n)%Z -> length (CachePool.popitem_while_over n d) <= Z.to_nat n.
Proof. intros Hn. rewrite popitem_while_over_drop, length_drop. lia. Qed.

Lemma check_count_cache_num p :
  CachePool._cache_num (CachePool._check_count p) = CachePool._cache_num p.
Proof. unfold CachePool._check_count. by destruct (0 <? _)%Z. Qed.

Lemma check_count_atomic p :
  CachePool.atomic (CachePool._check_count p) = CachePool.atomic p.
Proof. unfold CachePool._check_count. by destruct (0 <? _)%Z. Qed.

Lemma set_cache_num k o p :
  CachePool._cache_num (CachePool.set k o p) = CachePool._cache_num p.
Proof. unfold CachePool.set. by rewrite check_count_cache_num. Qed.

Lemma set_atomic k o p :
  CachePool.atomic (CachePool.set k o p) = CachePool.atomic p.
Proof. unfold CachePool.set. by rewrite check_count_atomic. Qed.

Lemma set_cache k o p :
  CachePool._cache (CachePool.set k o p) =
  drop (evicted_count (CachePool._cache_num p)
          (length (OrderedDict.setitem k o (CachePool._cache p))))
       (OrderedDict.setitem k o (CachePool._cache p)).
Proof.
  unfold CachePool.set, CachePool._check_count, evicted_count. simpl.
  destruct (0 <? CachePool._cache_num p)%Z; simpl; [|done].
  apply popitem_while_over_drop.
Qed.

(** After [set] a positive bound holds, whatever the pool was before. *)
Lemma set_bound k o p :
  (0 < CachePool._cache_num p)%Z ->
  (Z.of_nat (length (CachePool._cache (CachePool.set k o p))) <= CachePool._cache_num p)%Z.
Proof.
  intros Hn. rewrite set_cache. unfold evicted_count.
  destruct (Z.ltb_spec 0 (CachePool._cache_num p)); [|lia].
  rewrite length_drop. lia.
Qed.

(** An entry inserted under a new key survives the capacity check. *)
Lemma set_new_cache k o p :
  OrderedDict.get k (CachePool._cache p) = None ->
  CachePool._cache (CachePool.set k o p) =
  drop (evicted_count (CachePool._cache_num p) (S (length (CachePool._cache p))))
       (CachePool._cache p) ++ [(k, o)].
Proof.
  intros Hnew. rewrite set_cache, od_setitem_new by done.
  rewrite length_app. simpl. rewrite Nat.add_1_r.
  rewrite drop_app_le; [done|].
  unfold evicted_count. destruct (Z.ltb_spec 0 (CachePool._cache_num p)); lia.
Qed.

Lemma od_get_drop_None k (m : nat) d :
  OrderedDict.get k d = None -> OrderedDict.get k (drop m d) = None.
Proof.
  revert m. induction d as [|[k' v'] d IH]; intros [|m]; simpl; try done.
  destruct (decide (k = k')); [done|]. apply IH.
Qed.

Lemma set_new_get k o p :
  OrderedDict.get k (CachePool._cache p) = None ->
  OrderedDict.get k (CachePool._cache (CachePool.set k o p)) = Some o.
Proof.
  intros Hnew. rewrite set_new_cache, od_get_app by done.
  rewrite od_get_drop_None by done. simpl. by rewrite decide_True.
Qed.

End CachePoolFacts.

Section SequentialClaims.
Context {K P : Type} `{EqDecision K}.
Implicit Types (k : K) (o : objref) (d : list (K * objref)) (p : CachePool.t K).
Implicit Types (h : list (ThreadSafeObject.t K P)).

Lemma get_pool h k p : snd (CachePool.get h k p) = p.
Proof. unfold CachePool.get. by destruct (OrderedDict.get k _). Qed.

Lemma get_Some h k p o :
  OrderedDict.get k (CachePool._cache p) = Some o ->
  fst (CachePool.get h k p) = if CachePool.is_loaded h o then Ret (Some o) else Block.
Proof. unfold CachePool.get. by intros ->. Qed.

Lemma get_None h k p :
  OrderedDict.get k (CachePool._cache p) = None ->
  CachePool.get h k p = (Ret None, p).
Proof. unfold CachePool.get. by intros ->. Qed.

Lemma pop_bounded n key p : bounded n p -> bounded n (snd (CachePool.pop key p)).
Proof.
  intros [Hn Hlen]. destruct key as [k|]; simpl.
  - split; [done|]. simpl. pose proof (od_remove_length_le k (CachePool._cache p)). lia.
  - destruct (CachePool._cache p) as [|kv d'] eqn:Hd; simpl.
    + split; [done|]. by rewrite Hd.
    + split; [done|]. simpl in *. lia.
Qed.

Lemma acquire_bounded n h k p : bounded n p -> bounded n (snd (CachePool.acquire h k p)).
Proof.
  intros [Hn Hlen]. unfold CachePool.acquire, CachePool.get.
  destruct (OrderedDict.get k (CachePool._cache p)) as [o|] eqn:Hg; simpl; [|done].
  destruct (CachePool.is_loaded h o); simpl; [|done].
  destruct (OrderedDict.move_to_end k (CachePool._cache p)) as [d'|] eqn:Hm; simpl; [|done].
  split; [done|]. simpl. apply od_move_to_end_length in Hm. lia.
Qed.

Lemma acquire_enter_bounded n tid o h p :
  bounded n p -> bounded n (snd (CachePool.acquire_enter tid o h p)).
Proof.
  intros [Hn Hlen]. unfold CachePool.acquire_enter.
  destruct (h !! o) as [x|]; simpl; [|done].
  destruct (RLock.acquire tid _); simpl; [|done].
  destruct (ThreadSafeObject._pool x); simpl; [|done].
  destruct (OrderedDict.move_to_end _ _) as [d'|] eqn:Hm; simpl; [|done].
  split; [done|]. simpl. apply od_move_to_end_length in Hm. lia.
Qed.

Lemma unload_bounded n h k p :
  bounded n p -> bounded n (snd (CachePool.unload_vector_store h k p)).
Proof.
  intros Hb. unfold CachePool.unload_vector_store, CachePool.get.
  destruct (OrderedDict.get k (CachePool._cache p)) as [o|] eqn:Hg; simpl; [|done].
  destruct (CachePool.is_loaded h o); simpl; [|done].
  apply (pop_bounded n (Some k) p Hb).
Qed.

Lemma apply_bounded n (x : Ops.op) (st : list (ThreadSafeObject.t K P) * CachePool.t K) :
  (0 < n)%Z -> bounded n (snd st) -> bounded n (snd (Ops.apply x st)).
Proof.
  intros Hn Hb. destruct st as [h p]. simpl in Hb.
  destruct x as [k o|k|key|k|tid o|k| |h']; simpl; try done.
  - destruct Hb as [Hnum Hlen]. split; [by rewrite set_cache_num|].
    rewrite <- Hnum. apply set_bound. lia.
  - by rewrite get_pool.
  - by apply pop_bounded.
  - by apply acquire_bounded.
  - pose proof (acquire_enter_bounded n tid o h p Hb) as Hb'.
    by destruct (CachePool.acquire_enter tid o h p) as [[r h'] p'].
  - by apply unload_bounded.
Qed.

Lemma apply_all_bounded n (xs : list Ops.op) (st : list (ThreadSafeObject.t K P) * CachePool.t K) :
  (0 < n)%Z -> bounded n (snd st) -> bounded n (snd (Ops.apply_all xs st)).
Proof.
  intros Hn. revert st. induction xs as [|x xs IH]; intros st Hb; [done|].
  simpl. apply IH. by apply apply_bounded.
Qed.

(** C3: a pool created with a positive bound never holds more entries than
    the bound once an operation has completed, whatever operations were
    called before and whatever they returned; every prefix of a sequence is a
    sequence, so this covers the state after each call. *)
Theorem C3_entries_never_exceed_bound (n : Z) p0 h0 (xs : list Ops.op) :
  (0 < n)%Z ->
  CachePool.__init__ n = Ret p0 ->
  (Z.of_nat (length (CachePool._cache (snd (Ops.apply_all xs (h0, p0))))) <= n)%Z.
Proof.
  intros Hn [= <-].
  apply (apply_all_bounded n xs (h0, _) Hn). split; simpl; [done|lia].
Qed.

(** C6: with bound 2, inserting three distinct keys A, B, C in this order
    leaves exactly B and C, in this order; A is gone, and [get] answers
    None for it. *)
Theorem C6_bound_two_keeps_last_two (a b c : K) (oa ob oc : objref) p0 h :
  CachePool.__init__ 2 = Ret p0 ->
  a <> b -> a <> c -> b <> c ->
  CachePool.keys (CachePool.set b ob (CachePool.set a oa p0)) = [a; b] /\
  CachePool.keys (CachePool.set c oc (CachePool.set b ob (CachePool.set a oa p0))) = [b; c] /\
  CachePool.get h a (CachePool.set c oc (CachePool.set b ob (CachePool.set a oa p0))) =
    (Ret None, CachePool.set c oc (CachePool.set b ob (CachePool.set a oa p0))).
Proof.
  intros [= <-] Hab Hac Hbc.
  assert (Hc : CachePool._cache (CachePool.set c oc (CachePool.set b ob
            (CachePool.set a oa {| CachePool._cache_num := 2; CachePool._cache := [];
                                   CachePool.atomic := None |}))) = [(b, ob); (c, oc)]).
  { unfold CachePool.set, CachePool._check_count. simpl.
    rewrite !decide_False by congruence. simpl.
    rewrite !decide_False by congruence. by simpl. }
  split; [|split].
  - unfold CachePool.keys, CachePool.set, CachePool._check_count. simpl.
    rewrite !decide_False by congruence. by simpl.
  - unfold CachePool.keys. by rewrite Hc.
  - apply get_None. rewrite Hc. simpl. by rewrite !decide_False by congruence.
Qed.

(** C9: a bound of zero or below is accepted by the constructor, and no
    insertion into such a pool removes anything: the dict after [set] is the
    dict after the assignment alone. *)
Theorem C9_nonpositive_bound_never_evicts (n : Z) :
  (n <= 0)%Z ->
  (exists p0 : CachePool.t K, CachePool.__init__ n = Ret p0 /\ CachePool._cache_num p0 = n) /\
  (forall p k o,
     CachePool._cache_num p = n ->
     CachePool._cache (CachePool.set k o p) = OrderedDict.setitem k o (CachePool._cache p) /\
     CachePool._cache_num (CachePool.set k o p) = n).
Proof.
  intros Hn. split.
  - eexists. split; [reflexivity|done].
  - intros p k o Hp. split; [|by rewrite set_cache_num].
    rewrite set_cache. unfold evicted_count. rewrite Hp.
    destruct (Z.ltb_spec 0 n); [lia|done].
Qed.

(** C2 (amended): the capacity check never looks at readiness. When a new key
    is inserted, the entries removed are the [evicted_count] oldest ones of
    the ordering, whoever they are; the entry just inserted is never one of
    them. *)
Theorem C2_eviction_is_oldest_first k o p :
  OrderedDict.get k (CachePool._cache p) = None ->
  evicted_count (CachePool._cache_num p) (S (length (CachePool._cache p)))
    <= length (CachePool._cache p) /\
  CachePool._cache (CachePool.set k o p) =
    drop (evicted_count (CachePool._cache_num p) (S (length (CachePool._cache p))))
         (CachePool._cache p) ++ [(k, o)] /\
  OrderedDict.get k (CachePool._cache (CachePool.set k o p)) = Some o.
Proof.
  intros Hnew. split; [|split].
  - unfold evicted_count. destruct (Z.ltb_spec 0 (CachePool._cache_num p)); lia.
  - by apply set_new_cache.
  - by apply set_new_get.
Qed.

End SequentialClaims.

(** ** The bound under concurrent calls *)
Section MachineBound.
Import ThreadSafeObject CachePool Machine.
Context {K P A W : Type} `{EqDecision K}.
Variable kind : pool_kind.
Variable ctor : nat -> K -> A -> W -> W * outcome P.

(** No statement of [load_embeddings] or [load_vector_store] takes a pool
    over its bound: [set] runs the capacity check, and nothing else adds an
    entry. *)
Lemma lstep_bounded n tid key a c (g : shared (K:=K) (P:=P) (W:=W)) c' g' :
  (0 < n)%Z ->
  bounded n (pool g) ->
  lstep kind ctor tid key a c g = Some (c', g') ->
  bounded n (pool g').
Proof.
  intros Hn Hb Hl.
  destruct c; simpl in Hl;
    repeat match type of Hl with
           | context [match ?e with _ => _ end] => destruct e eqn:?
           | context [if ?e then _ else _] => destruct e eqn:?
           end; simplify_eq; simpl; try done; destruct Hb as [Hnum Hlen].
  - split; [by rewrite set_cache_num|]. rewrite <- Hnum. apply set_bound. lia.
  - split; [done|]. simpl.
    match goal with H : OrderedDict.move_to_end _ _ = Some _ |- _ =>
      apply od_move_to_end_length in H end. lia.
Qed.

(** Whatever the interleaving, a pool within its positive bound stays within
    it. *)
Lemma step_bounded n (s s' : state (K:=K) (P:=P) (A:=A) (W:=W)) :
  (0 < n)%Z ->
  bounded n (pool (sh s)) ->
  step kind ctor s s' ->
  bounded n (pool (sh s')).
Proof.
  intros Hn Hb [i Hi]. unfold tstep in Hi.
  destruct (threads s !! i) as [t|]; [|done].
  destruct (lstep _ _ _ _ _ _ _) as [[c' g']|] eqn:Hl; [|done].
  simplify_eq. simpl. by eapply lstep_bounded.
Qed.

End MachineBound.

(** ** N concurrent calls for one key *)
Section OneKey.
Import ThreadSafeObject CachePool Machine OneKey.
Context {K P A W : Type} `{EqDecision K}.
Variable kind : pool_kind.
Variable ctor : nat -> K -> A -> W -> W * outcome P.
Variable k : K.

Implicit Types (g : shared (K:=K) (P:=P) (W:=W)) (o : objref) (c : pc (P:=P)).
Implicit Types (s : state (K:=K) (P:=P) (A:=A) (W:=W)).
Implicit Types (x : ThreadSafeObject.t K P).

Lemma fld_Some {B} (f : ThreadSafeObject.t K P -> B) g o b :
  fld f g o = Some b -> exists x, heap g !! o = Some x /\ f x = b.
Proof using Type. unfold fld. intros (x & ? & ?)%fmap_Some. eauto. Qed.

Lemma insert_as_alter (u : ThreadSafeObject.t K P -> ThreadSafeObject.t K P) o x
    (h : list (ThreadSafeObject.t K P)) :
  h !! o = Some x -> <[o := u x]> h = alter u o h.
Proof using Type.
  intros Hx. apply list_eq. intros i. rewrite list_lookup_alter, list_lookup_insert.
  destruct (decide (o = i)) as [->|Hne].
  - rewrite decide_True by eauto using lookup_lt_Some. by rewrite Hx.
  - rewrite decide_False by (by intros [? _]). done.
Qed.

Lemma fld_alter {B} (f : ThreadSafeObject.t K P -> B) u g o o' :
  fld f (with_heap (alter u o (heap g)) g) o' =
  if decide (o = o') then fld (fun x => f (u x)) g o else fld f g o'.
Proof using Type.
  unfold fld. simpl. rewrite list_lookup_alter.
  destruct (decide (o = o')) as [->|]; [|done].
  by destruct (heap g !! o').
Qed.

Lemma fld_alter_pres {B} (f : ThreadSafeObject.t K P -> B) u g o o' :
  (forall x, f (u x) = f x) ->
  fld f (with_heap (alter u o (heap g)) g) o' = fld f g o'.
Proof using Type.
  intros Hf. rewrite fld_alter. destruct (decide (o = o')) as [->|]; [|done].
  unfold fld. destruct (heap g !! o'); simpl; [|done]. by rewrite Hf.
Qed.

Lemma fld_snoc_old {B} (f : ThreadSafeObject.t K P -> B) g y o b :
  fld f g o = Some b -> fld f (with_heap (heap g ++ [y]) g) o = Some b.
Proof using Type.
  unfold fld. simpl. intros (x & Hx & ->)%fmap_Some. 
  by rewrite (lookup_app_l_Some _ _ _ _ Hx).
Qed.

Lemma fld_snoc_new {B} (f : ThreadSafeObject.t K P -> B) g y :
  fld f (with_heap (heap g ++ [y]) g) (length (heap g)) = Some (f y).
Proof using Type.
  unfold fld. simpl. rewrite lookup_app_r by lia.
  by rewrite Nat.sub_diag.
Qed.

Lemma is_loaded_fld g o : is_loaded (heap g) o = true <-> fld _loaded g o = Some true.
Proof using Type.
  unfold is_loaded, fld. destruct (heap g !! o) as [x|]; simpl; [|done].
  split; [by intros ->|by intros [= ->]].
Qed.

Lemma is_loaded_false_fld g o b :
  fld _loaded g o = Some b -> is_loaded (heap g) o = b.
Proof using Type.
  unfold is_loaded, fld. destruct (heap g !! o) as [x|]; simpl; [|done].
  by intros [= ->].
Qed.

(** Every statement shortens what its thread has left to do. *)
Lemma lstep_weight i key a c g c' g' :
  lstep kind ctor i key a c g = Some (c', g') -> weight c' < weight c.
Proof using Type.
  destruct c; simpl; intros Hl;
    repeat match type of Hl with
           | context [match ?e with _ => _ end] => destruct e eqn:?
           | context [if ?e then _ else _] => destruct e eqn:?
           end; simplify_eq; simpl; lia.
Qed.

Lemma measure_insert i (t t' : thread (K:=K) (P:=P) (A:=A)) (l : list thread) :
  l !! i = Some t ->
  weight (th_pc t') < weight (th_pc t) ->
  foldr (fun t n => weight (th_pc t) + n) 0 (<[i := t']> l)
  < foldr (fun t n => weight (th_pc t) + n) 0 l.
Proof using Type.
  revert i. induction l as [|t0 l IH]; intros [|i] Hi Hw; simplify_eq/=.
  - lia.
  - specialize (IH i Hi Hw). lia.
Qed.

Lemma step_measure s s' : step kind ctor s s' -> measure s' < measure s.
Proof using Type.
  intros [i Hi]. unfold tstep in Hi.
  destruct (threads s !! i) as [t|] eqn:Ht; [|done].
  destruct (lstep _ _ _ _ _ _ _) as [[c' g']|] eqn:Hl; [|done].
  simplify_eq. unfold measure. simpl.
  eapply measure_insert; [done|]. simpl. by eapply lstep_weight.
Qed.

Lemma nsteps_measure n s s' :
  nsteps (step kind ctor) n s s' -> n + measure s' <= measure s.
Proof using Type.
  induction 1 as [|n s1 s2 s3 Hs _ IH]; [lia|].
  apply step_measure in Hs. lia.
Qed.

Lemma measure_bound s : measure s <= 13 * length (threads s).
Proof using Type.
  unfold measure. induction (threads s) as [|t l IH]; simpl; [lia|].
  assert (weight (th_pc t) <= 13) by (destruct (th_pc t); simpl; lia). lia.
Qed.

(** A statement leaves the world and the count of constructor runs as they
    are, unless it is a run of the constructor. *)
Lemma lstep_world i key a c (g : shared (K:=K) (P:=P) (W:=W)) c' g' :
  lstep kind ctor i key a c g = Some (c', g') ->
  (world g' = world g /\ ctor_calls g' = ctor_calls g) \/
  ctor_calls g' = S (ctor_calls g).
Proof using Type.
  intros Hl.
  destruct c; simpl in Hl;
    repeat match type of Hl with
           | context [match ?e with _ => _ end] => destruct e eqn:?
           | context [if ?e then _ else _] => destruct e eqn:?
           end; simplify_eq; simpl; eauto.
Qed.

Lemma ctor_returns_step s s' :
  ctor_returns k ctor s -> step kind ctor s s' -> ctor_returns k ctor s'.
Proof using Type.
  intros Hret [j Hj]. unfold tstep in Hj.
  destruct (threads s !! j) as [tj|] eqn:Htj; [|done].
  destruct (lstep _ _ _ _ _ _ _) as [[c' g']|] eqn:Hl; [|done].
  injection Hj as <-. unfold ctor_returns. cbn [sh threads].
  intros Hc i t Hi.
  destruct (lstep_world _ _ _ _ _ _ _ Hl) as [[Hw Hn]|Hn]; [|lia].
  rewrite Hw. rewrite Hn in Hc.
  destruct (decide (i = j)) as [->|Hne].
  - rewrite list_lookup_insert_eq in Hi by by eapply lookup_lt_Some.
    injection Hi as <-. exact (Hret Hc j tj Htj).
  - rewrite list_lookup_insert_ne in Hi by done. exact (Hret Hc i t Hi).
Qed.

Lemma acquire_Some j (l l' : RLock.t) :
  RLock.acquire j l = Some l' ->
  (l = None /\ l' = Some (j, 1)) \/ (exists n, l = Some (j, n) /\ l' = Some (j, S n)).
Proof using Type.
  unfold RLock.acquire. destruct l as [[owner n]|]; [|intros [= <-]; by left].
  destruct (decide (owner = j)) as [->|]; [|done]. intros [= <-]. right. eauto.
Qed.

Lemma release_None j (l : RLock.t) :
  RLock.release j l = None -> forall n, l <> Some (j, n).
Proof using Type.
  unfold RLock.release. destruct l as [[owner n]|]; [|done].
  destruct (decide (owner = j)) as [->|]; [done|]. intros _ n' [= ? ?]. done.
Qed.

Lemma release_once j : RLock.release j (Some (j, 1)) = Some None.
Proof using Type. unfold RLock.release. by rewrite decide_True. Qed.

Ltac split_hyps :=
  repeat match goal with
         | H : _ /\ _ |- _ => destruct H
         | H : exists _, _ |- _ => destruct H
         end.

Ltac inv_lstep Hl :=
  repeat match type of Hl with
         | context [match ?e with _ => _ end] => destruct e eqn:?
         | context [if ?e then _ else _] => destruct e eqn:?
         end; simplify_eq.

Ltac facts :=
  unfold holds, present, absent, fresh, building, ready in *; split_hyps.

(** A statement of thread [j] leaves what another thread knows untouched. *)
Lemma lstep_interference g g' i j ci cj cj' a :
  i <> j ->
  thr_ok kind k g j cj ->
  thr_ok kind k g i ci ->
  lstep kind ctor j k a cj g = Some (cj', g') ->
  thr_ok kind k g' i ci.
Proof.
  intros Hne Hj Hi Hl.
  destruct cj; simpl in Hl, Hj; inv_lstep Hl; try done;
    destruct ci; simpl in Hi |- *; try done; facts; simpl in *; simplify_eq.
  all: try match goal with
       | H : RLock.acquire _ _ = Some _ |- _ =>
           apply acquire_Some in H; destruct H as [[? ?]|(? & ? & ?)]; simplify_eq
       end.
  all: rewrite (insert_as_alter (set_lock _)) by done.
  all: repeat first [split | eexists];
    rewrite ?fld_alter_pres by done; try eassumption; done.
Qed.

(** The statements that change the dict keep the entry of [k]. *)
Lemma lstep_present_back g g' j c c' a o :
  thr_ok kind k g j c ->
  lstep kind ctor j k a c g = Some (c', g') ->
  present k g' o ->
  present k g o \/ (absent k g /\ c = P_set o /\ c' = P_lock_acquire o).
Proof.
  intros Hj Hl Hp.
  destruct c; simpl in Hl, Hj; inv_lstep Hl; facts; simpl in *; eauto.
  - right. rewrite set_new_get in Hp by done. by simplify_eq.
  - left. by erewrite od_get_move_to_end in Hp by done.
Qed.

Lemma fld_alter_eq {B} (f : ThreadSafeObject.t K P -> B) u g o x :
  heap g !! o = Some x ->
  fld f (with_heap (alter u o (heap g)) g) o = Some (f (u x)).
Proof using Type.
  intros Hx. rewrite fld_alter, decide_True by done. unfold fld. by rewrite Hx.
Qed.

Lemma fld_at {B} (f : ThreadSafeObject.t K P -> B) g o x b :
  heap g !! o = Some x -> fld f g o = Some b -> f x = b.
Proof using Type. unfold fld. intros ->. simpl. by intros [= ->]. Qed.

Lemma fld_lookup {B} (f : ThreadSafeObject.t K P -> B) g o x :
  heap g !! o = Some x -> fld f g o = Some (f x).
Proof using Type. unfold fld. by intros ->. Qed.

(** A thread at a builder point knows the placeholder is not loaded. *)
Lemma builder_not_loaded g b c o :
  builder o c = true -> thr_ok kind k g b c -> fld _loaded g o = Some false.
Proof.
  destruct c; simpl; try done; intros ->%bool_decide_eq_true Hb; facts; done.
Qed.

Lemma lstep_self s j tj c' g' :
  Inv kind k s ->
  ctor_returns k ctor s ->
  threads s !! j = Some tj ->
  lstep kind ctor j k (th_arg tj) (th_pc tj) (sh s) = Some (c', g') ->
  thr_ok kind k g' j c'.
Proof.
  intros [HT HA Habs Hpres] Hret Htj Hl.
  destruct (HT j tj Htj) as [_ Hj].
  destruct (th_pc tj) eqn:Hpc; simpl in Hl, Hj.
  - (* self.atomic.acquire() *)
    destruct (RLock.acquire _ _) as [l|] eqn:Hacq; [|done]. simplify_eq. simpl.
    apply acquire_Some in Hacq as [[_ ->]|(n & Hat & _)]; [done|].
    destruct (HA _ _ Hat) as (_ & t & Ht & Hh). simplify_eq. by rewrite Hpc in Hh.
  - (* self._cache.get(key) *)
    destruct (OrderedDict.get _ _) eqn:Hg; simplify_eq; simpl; done.
  - (* wait_for_loading, under the pool lock *)
    destruct (is_loaded _ _) eqn:Hld; [|done]. simplify_eq. simpl.
    destruct Hj as [Hh Hp]. split; [done|].
    apply is_loaded_fld in Hld.
    destruct (Hpres _ Hp) as [[_ [v Hr]]|(b & t & Hb & Hbu)]; [by eauto|].
    destruct (HT b t Hb) as [_ Hokb].
    pose proof (builder_not_loaded _ _ _ _ Hbu Hokb). congruence.
  - (* ThreadSafeObject(key, pool=self) *)
    simplify_eq. simpl. destruct Hj. unfold fresh.
    split_and!; try done; by rewrite fld_snoc_new.
  - (* self.set(key, item) *)
    simplify_eq. simpl. destruct Hj as (Hh & Ha & Hf).
    unfold holds, present. simpl. rewrite set_atomic.
    split_and!; [done|by apply set_new_get|apply Hf..|by apply Habs].
  - (* self._lock.acquire() *)
    destruct Hj as (Hh & Hp & (Hl1 & Hl2 & Hl3 & Hl4) & Hc).
    destruct (heap (sh s) !! o) as [x|] eqn:Hx; [|done].
    apply (fld_at _ _ _ _ _ Hx) in Hl1, Hl2, Hl3, Hl4.
    rewrite Hl1 in Hl. simpl in Hl. simplify_eq. simpl.
    rewrite (insert_as_alter (set_lock _)) by done.
    unfold building. rewrite !(fld_alter_eq _ _ _ _ _ Hx). simpl.
    split_and!; try done; congruence.
  - (* move_to_end *)
    destruct Hj as (Hh & Hp & Hb & Hc). pose proof Hb as (Hl1 & Hl2 & Hl3 & Hl4).
    destruct (heap (sh s) !! o) as [x|] eqn:Hx; [|done].
    apply (fld_at _ _ _ _ _ Hx) in Hl3, Hl4.
    rewrite Hl3, Hl4 in Hl.
    destruct (od_move_to_end_is_Some _ _ _ Hp) as [d' Hd']. rewrite Hd' in Hl.
    simplify_eq. simpl. unfold holds, present. simpl.
    rewrite (od_get_move_to_end _ _ _ _ Hd').
    split_and!; try done; apply Hb.
  - (* self.atomic.release() *)
    destruct Hj as (Hh & Hp & Hb & Hc). red in Hh. rewrite Hh, release_once in Hl.
    simplify_eq. simpl. done.
  - (* the constructor body *)
    destruct Hj as (Hp & Hb & Hc).
    destruct (Hret Hc j tj Htj) as (w' & v & Hv).
    rewrite Hv in Hl. simplify_eq. simpl. split_and!; [done|apply Hb..|].
    simpl. by rewrite Hc.
  - (* the constructor body that never returns *)
    done.
  - (* item.obj = ... *)
    destruct Hj as (Hp & (Hl1 & Hl2 & Hl3 & Hl4) & Hc). simplify_eq. simpl.
    destruct (fld_Some _ _ _ _ Hl1) as (x & Hx & _).
    unfold building. rewrite !fld_alter_pres by done.
    split_and!; try done. exists v. by rewrite (fld_alter_eq _ _ _ _ _ Hx).
  - (* item.finish_loading() *)
    destruct Hj as (Hp & (Hl1 & Hl2 & Hl3 & Hl4) & Hc & v & Hv). simplify_eq. simpl.
    destruct (fld_Some _ _ _ _ Hl1) as (x & Hx & _).
    rewrite fld_alter_pres by done. split_and!; try done.
    exists v. split.
    + by rewrite (fld_alter_eq _ _ _ _ _ Hx).
    + by rewrite fld_alter_pres.
  - (* finally: self._lock.release() *)
    destruct Hj as (-> & Hp & Hlk & v & Hr1 & Hr2).
    destruct (heap (sh s) !! o) as [x|] eqn:Hx; [|done].
    apply (fld_at _ _ _ _ _ Hx) in Hlk.
    rewrite Hlk, release_once in Hl. simplify_eq. simpl.
    exists o, v. unfold ready. rewrite (insert_as_alter (set_lock _)) by done.
    by rewrite !fld_alter_pres.
  - (* else: self.atomic.release() *)
    destruct Hj as (Hh & Hr). red in Hh. rewrite Hh, release_once in Hl.
    simplify_eq. simpl. done.
  - (* return self.get(key): the lookup *)
    destruct Hj as (o & v & Hp & Hr). red in Hp. rewrite Hp in Hl.
    simplify_eq. simpl. eauto.
  - (* return self.get(key): wait_for_loading *)
    destruct Hj as (Hp & v & Hr1 & Hr2).
    rewrite (is_loaded_false_fld _ _ _ Hr1) in Hl. simplify_eq. simpl.
    exists o, v. split_and!; try done.
    unfold ret_of, result. destruct kind; [|done].
    destruct (fld_Some _ _ _ _ Hr2) as (x & -> & Hx). simpl. by rewrite Hx.
  - done.
  - done.
Qed.

(** How a statement moves the pool lock. *)
Lemma lstep_atomic g g' j c c' a :
  thr_ok kind k g j c ->
  thr_ok kind k g' j c' ->
  lstep kind ctor j k a c g = Some (c', g') ->
  (atomic (pool g') = atomic (pool g) /\ holder c' = holder c) \/
  (holder c' = true /\ atomic (pool g') = Some (j, 1)) \/
  atomic (pool g') = None.
Proof.
  intros Hj Hj' Hl.
  destruct c; simpl in Hl, Hj; inv_lstep Hl; simpl in Hj' |- *; facts;
    simpl in *; try rewrite set_atomic; eauto; try done.
  all: match goal with
       | H : atomic _ = Some _, R : RLock.release _ _ = Some _ |- _ =>
           rewrite H, release_once in R
       end; simplify_eq; eauto.
Qed.

(** A statement that leaves the key uncached found it uncached and did not
    run the constructor. *)
Lemma lstep_absent_back g g' j c c' a :
  thr_ok kind k g j c ->
  lstep kind ctor j k a c g = Some (c', g') ->
  absent k g' ->
  absent k g /\ ctor_calls g' = ctor_calls g.
Proof.
  intros Hj Hl Ha.
  destruct c; simpl in Hl, Hj; inv_lstep Hl; facts; simpl in *; try done.
  - erewrite od_get_move_to_end in Ha by done. done.
  - congruence.
  - congruence.
  - congruence.
Qed.

(** A loaded object stays loaded, and the constructor does not run again. *)
Lemma lstep_ready g g' j c c' a o v :
  thr_ok kind k g j c ->
  present k g o ->
  ready g o v ->
  lstep kind ctor j k a c g = Some (c', g') ->
  ready g' o v /\ ctor_calls g' = ctor_calls g.
Proof.
  intros Hj Hp Hr Hl.
  destruct c; simpl in Hl, Hj; inv_lstep Hl; facts; simpl in *; simplify_eq;
    try done.
  all: split; [|done];
    first [ split; by apply fld_snoc_old
          | rewrite (insert_as_alter (set_lock _)) by done;
            split; by rewrite fld_alter_pres ].
Qed.

(** The builder keeps building until it has loaded the object. *)
Lemma lstep_builder g g' j c c' a o :
  builder o c = true ->
  thr_ok kind k g j c ->
  thr_ok kind k g' j c' ->
  lstep kind ctor j k a c g = Some (c', g') ->
  builder o c' = true \/ (ctor_calls g' = 1 /\ exists v, ready g' o v).
Proof.
  intros Hb Hj Hj' Hl.
  destruct c; simpl in Hb; try done; apply bool_decide_eq_true in Hb; subst;
    simpl in Hl, Hj; inv_lstep Hl; simpl in Hj' |- *;
    try (left; by apply bool_decide_eq_true).
  all: try (by destruct Hj' as [? _]).
  all: try (by destruct Hj').
  right. destruct Hj as (_ & _ & ? & _). destruct Hj' as (_ & _ & _ & Hr). eauto.
Qed.

(** The invariant is inductive. *)
Lemma inv_step s s' :
  Inv kind k s -> ctor_returns k ctor s -> step kind ctor s s' -> Inv kind k s'.
Proof.
  intros HI Hret [j Hstep]. unfold tstep in Hstep.
  destruct (threads s !! j) as [tj|] eqn:Htj; [|done].
  destruct (lstep _ _ _ _ _ _ _) as [[c' g']|] eqn:Hl; [|done].
  simplify_eq.
  pose proof HI as [HT HA Habs Hpres].
  destruct (HT j tj Htj) as [Hkey Hj]. rewrite Hkey in Hl.
  pose proof (lstep_self s j tj c' g' HI Hret Htj Hl) as Hj'.
  assert (Hlen : j < length (threads s)) by eauto using lookup_lt_Some.
  split; simpl.
  - intros i t Hi. destruct (decide (i = j)) as [->|Hne].
    + rewrite list_lookup_insert_eq in Hi by done. injection Hi as <-.
      split; [exact Hkey|exact Hj'].
    + rewrite list_lookup_insert_ne in Hi by done.
      destruct (HT i t Hi) as [? Hi']. split; [done|].
      exact (lstep_interference _ _ i j _ _ _ _ Hne Hj Hi' Hl).
  - intros j' n Hat.
    destruct (lstep_atomic _ _ _ _ _ _ Hj Hj' Hl) as [[Heq Hh]|[[Hh Heq]|Heq]];
      rewrite Heq in Hat; [| |done].
    + destruct (HA j' n Hat) as (-> & t & Ht & Hht). split; [done|].
      destruct (decide (j' = j)) as [->|Hne].
      * rewrite list_lookup_insert_eq by done.
        rewrite Htj in Ht. injection Ht as <-.
        eexists. split; [done|]. simpl. congruence.
      * rewrite list_lookup_insert_ne by done. eauto.
    + injection Hat as <- <-. split; [done|].
      rewrite list_lookup_insert_eq by done. eauto.
  - intros Ha. destruct (lstep_absent_back _ _ _ _ _ _ Hj Hl Ha) as [Ha' ->]. auto.
  - intros o Hp.
    destruct (lstep_present_back _ _ _ _ _ _ _ Hj Hl Hp) as [Hp'|(_ & _ & ->)].
    + destruct (Hpres o Hp') as [[Hc [v Hr]]|(b & t & Hb & Hbu)].
      * left. destruct (lstep_ready _ _ _ _ _ _ _ _ Hj Hp' Hr Hl) as [? ->]. eauto.
      * destruct (decide (b = j)) as [->|Hne].
        -- rewrite Htj in Hb. injection Hb as <-.
           destruct (lstep_builder _ _ _ _ _ _ _ Hbu Hj Hj' Hl) as [?|?]; [|by left].
           right. exists j. eexists. rewrite list_lookup_insert_eq by done. eauto.
        -- right. exists b, t. by rewrite list_lookup_insert_ne.
    + right. exists j. eexists. rewrite list_lookup_insert_eq by done.
      split; [done|]. simpl. by apply bool_decide_eq_true.
Qed.

Lemma inv_init s : Init k s -> Inv kind k s.
Proof.
  intros [Hne Hcalls Habs Hat Hc0]. split.
  - intros i t Ht. rewrite (Hcalls i t Ht). done.
  - intros j n. by rewrite Hat.
  - done.
  - intros o Hp. red in Hp, Habs. congruence.
Qed.

Lemma inv_rtc s s' :
  Inv kind k s -> ctor_returns k ctor s -> rtc (step kind ctor) s s' -> Inv kind k s'.
Proof. induction 3; eauto using inv_step, ctor_returns_step. Qed.

Lemma step_length s s' :
  step kind ctor s s' -> length (threads s') = length (threads s).
Proof using Type.
  intros [i Hi]. unfold tstep in Hi.
  destruct (threads s !! i); [|done].
  destruct (lstep _ _ _ _ _ _ _) as [[c' g']|]; [|done].
  simplify_eq. simpl. by rewrite length_insert.
Qed.

Lemma rtc_length s s' :
  rtc (step kind ctor) s s' -> length (threads s') = length (threads s).
Proof using Type.
  induction 1 as [|s1 s2 s3 Hs _ IH]; [done|].
  rewrite IH. by apply step_length.
Qed.

(** The constructor has run at most once. *)
Lemma inv_calls s : Inv kind k s -> ctor_calls (sh s) <= 1.
Proof.
  intros [HT HA Habs Hpres].
  destruct (OrderedDict.get k (_cache (pool (sh s)))) as [o|] eqn:Hg.
  - destruct (Hpres o Hg) as [[-> _]|(b & t & Hb & Hbu)]; [done|].
    destruct (HT b t Hb) as [_ Hok].
    destruct (th_pc t); simpl in Hbu, Hok; try done; facts; lia.
  - rewrite Habs by done. lia.
Qed.

(** Under the invariant a thread can always move, unless it waits for the
    pool lock, waits for an object that is not loaded, or has returned. *)
Lemma lstep_enabled g i c a :
  thr_ok kind k g i c ->
  c <> P_atomic_acquire ->
  (forall o, c = P_get_wait o -> is_loaded (heap g) o = true) ->
  (forall r, c <> P_done r) ->
  is_Some (lstep kind ctor i k a c g).
Proof.
  intros Hok Hacq Hwait Hdone.
  destruct c; simpl in Hok |- *; try done.
  - by destruct (OrderedDict.get _ _).
  - by rewrite Hwait.
  - destruct Hok as (_ & _ & (Hlk & _) & _).
    destruct (fld_Some _ _ _ _ Hlk) as (x & -> & ->). done.
  - destruct Hok as (_ & _ & (Hlk & _) & _).
    destruct (fld_Some _ _ _ _ Hlk) as (x & -> & _).
    destruct (_pool x); [|done]. by destruct (OrderedDict.move_to_end _ _).
  - by destruct (RLock.release _ _).
  - by destruct (ctor _ _ _ _) as [w' [v|e|]].
  - destruct Hok as (_ & _ & Hlk & _).
    destruct (fld_Some _ _ _ _ Hlk) as (x & -> & _).
    by destruct (RLock.release _ _).
  - by destruct (RLock.release _ _).
  - by destruct (OrderedDict.get _ _).
  - destruct Hok as (_ & v & Hr & _). by rewrite (is_loaded_false_fld _ _ _ Hr).
  - by destruct (Hdone r).
Qed.

Lemma tstep_enabled s i t :
  Inv kind k s ->
  threads s !! i = Some t ->
  is_Some (lstep kind ctor i k (th_arg t) (th_pc t) (sh s)) ->
  exists s', step kind ctor s s'.
Proof.
  intros HI Ht [[c' g'] Hl]. destruct (inv_threads _ _ _ HI i t Ht) as [Hkey _].
  eexists. exists i. unfold tstep. rewrite Ht, Hkey, Hl. done.
Qed.

(** A thread past the pool lock that has not returned: somebody can move. *)
Lemma progress_inside s j t :
  Inv kind k s ->
  threads s !! j = Some t ->
  th_pc t <> P_atomic_acquire ->
  (forall r, th_pc t <> P_done r) ->
  exists s', step kind ctor s s'.
Proof.
  intros HI Ht Hacq Hdone.
  destruct (inv_threads _ _ _ HI j t Ht) as [_ Hok].
  assert ((exists o, th_pc t = P_get_wait o /\ is_loaded (heap (sh s)) o = false) \/
          (forall o, th_pc t = P_get_wait o -> is_loaded (heap (sh s)) o = true))
    as [(o & Hpc & Hld)|Hnw].
  { destruct (th_pc t) as [| |o| | | | | | | | | | | | | | |]; try (by right).
    destruct (is_loaded (heap (sh s)) o) eqn:Hld; [right|left; eauto].
    by intros ? [= <-]. }
  - (* it waits for an object somebody is still building *)
    rewrite Hpc in Hok. destruct Hok as [_ Hp].
    destruct (inv_present _ _ _ HI o Hp) as [[_ (v & Hr & _)]|(b & tb & Hb & Hbu)].
    + apply is_loaded_fld in Hr. congruence.
    + destruct (inv_threads _ _ _ HI b tb Hb) as [_ Hokb].
      apply (tstep_enabled s b tb HI Hb). apply lstep_enabled; [done|..];
        destruct (th_pc tb); done.
  - apply (tstep_enabled s j t HI Ht). by apply lstep_enabled.
Qed.

(** No deadlock: while a thread has not returned, somebody can move. *)
Lemma progress s i t :
  Inv kind k s ->
  threads s !! i = Some t ->
  (forall r, th_pc t <> P_done r) ->
  exists s', step kind ctor s s'.
Proof.
  intros HI Ht Hdone.
  assert (th_pc t = P_atomic_acquire \/ th_pc t <> P_atomic_acquire) as [Hpc|Hpc]
    by (destruct (th_pc t); by eauto).
  2: by eapply progress_inside.
  destruct (atomic (pool (sh s))) as [[j n]|] eqn:Hat.
  - destruct (inv_atomic _ _ _ HI j n Hat) as (_ & tj & Htj & Hh).
    apply (progress_inside s j tj HI Htj); destruct (th_pc tj); done.
  - apply (tstep_enabled s i t HI Ht). rewrite Hpc. simpl. by rewrite Hat.
Qed.

(** When nobody can move, everybody has returned the one cached handle. *)
Lemma stuck_all_returned s :
  Inv kind k s ->
  threads s <> [] ->
  stuck kind ctor s ->
  ctor_calls (sh s) = 1 /\
  exists o v, present k (sh s) o /\ ready (sh s) o v /\ all_returned kind s o v.
Proof.
  intros HI Hne Hstuck.
  assert (Hdone : forall i t, threads s !! i = Some t -> exists r, th_pc t = P_done r).
  { intros i t Ht. destruct (th_pc t) eqn:Hpc; eauto.
    all: destruct (progress s i t HI Ht) as [s' [j Hj]];
      [intros r; by rewrite Hpc|by rewrite Hstuck in Hj]. }
  assert (exists t0, threads s !! 0 = Some t0) as [t0 Ht0]
    by (destruct (threads s); [done|eauto]).
  destruct (Hdone 0 t0 Ht0) as [r0 Hr0].
  destruct (inv_threads _ _ _ HI 0 t0 Ht0) as [_ Hok0].
  rewrite Hr0 in Hok0. destruct Hok0 as (o & v & Hp & Hr & _).
  split.
  - destruct (inv_present _ _ _ HI o Hp) as [[? _]|(b & tb & Hb & Hbu)]; [done|].
    destruct (Hdone b tb Hb) as [r Hpc]. by rewrite Hpc in Hbu.
  - exists o, v. split_and!; [done..|].
    intros i t Ht. destruct (Hdone i t Ht) as [r Hpc].
    destruct (inv_threads _ _ _ HI i t Ht) as [_ Hok].
    rewrite Hpc in Hok |- *. destruct Hok as (o' & v' & Hp' & [_ Hr'] & ->).
    red in Hp, Hp'. destruct Hr as [_ Hr]. congruence.
Qed.

(** C1 (amended): N threads call [load_embeddings] (or [load_vector_store])
    for the same key, which the pool does not cache yet, and the constructor
    returns a payload for each of them, run by that caller with its argument
    in the world the calls start in. Then under every interleaving of their
    statements: the execution stops after at most 13 statements per thread
    and the constructor body never runs twice; as long as some thread has
    not returned, some thread can move; and once no thread can move, the
    constructor body has run exactly once and every thread has returned the
    same cached handle. *)
Theorem C1_single_construction s0 :
  Init k s0 ->
  (forall i t, threads s0 !! i = Some t ->
     exists w' v, ctor i k (th_arg t) (world (sh s0)) = (w', Ret v)) ->
  (forall n s, nsteps (step kind ctor) n s0 s ->
     n <= 13 * length (threads s0) /\ ctor_calls (sh s) <= 1) /\
  (forall s i t, rtc (step kind ctor) s0 s ->
     threads s !! i = Some t -> (forall r, th_pc t <> P_done r) ->
     exists s', step kind ctor s s') /\
  (forall s, rtc (step kind ctor) s0 s -> stuck kind ctor s ->
     ctor_calls (sh s) = 1 /\
     exists o v, present k (sh s) o /\ ready (sh s) o v /\ all_returned kind s o v).
Proof.
  intros Hinit Hctor. pose proof (inv_init s0 Hinit) as HI0.
  assert (Hret : ctor_returns k ctor s0) by (intros _; exact Hctor).
  split_and!.
  - intros n s Hn. split.
    + pose proof (nsteps_measure n s0 s Hn).
      pose proof (measure_bound s0). lia.
    + apply inv_calls. eapply inv_rtc; [done..|]. by eapply rtc_nsteps_2.
  - intros s i t Hs Ht Hdone. eapply progress; [by eapply inv_rtc|done..].
  - intros s Hs Hstuck. apply stuck_all_returned; [by eapply inv_rtc| |done].
    intros Hnil. apply (f_equal length) in Hnil. rewrite (rtc_length _ _ Hs) in Hnil.
    destruct Hinit as [Hne _ _ _ _]. by destruct (threads s0).
Qed.

End OneKey.

(** ** One call run by itself *)
Section SequentialCall.
Import ThreadSafeObject CachePool Machine.
Context {K P A W : Type} `{EqDecision K}.
Variable kind : pool_kind.
Variable ctor : nat -> K -> A -> W -> W * outcome P.

Implicit Types (g : shared (K:=K) (P:=P) (W:=W)) (o : objref) (c : pc (P:=P)).
Implicit Types (t : thread (K:=K) (P:=P) (A:=A)).

Ltac norm :=
  cbn [at_pc call th_key th_arg th_pc with_pool with_heap with_atomic with_cache
       constructed heap pool world ctor_calls _cache _cache_num atomic].

Ltac norm_step :=
  cbn [lstep at_pc call th_key th_arg th_pc with_pool with_heap with_atomic with_cache
       constructed heap pool world ctor_calls _cache _cache_num atomic].

Lemma run_call_S n tid t g c' g' :
  lstep kind ctor tid (th_key t) (th_arg t) (th_pc t) g = Some (c', g') ->
  run_call kind ctor (S n) tid t g = run_call kind ctor n tid (at_pc c' t) g'.
Proof. simpl. by intros ->. Qed.

Lemma run_call_stop n tid t g :
  lstep kind ctor tid (th_key t) (th_arg t) (th_pc t) g = None ->
  run_call kind ctor n tid t g = (t, g).
Proof. destruct n; simpl; [done|]. by intros ->. Qed.

Lemma set_cache_atomic key o (p : CachePool.t K) l :
  CachePool.set key o (with_atomic l p) = with_atomic l (CachePool.set key o p).
Proof.
  unfold CachePool.set, CachePool._check_count. simpl.
  by destruct (0 <? _cache_num p)%Z.
Qed.

(** A call for a key the pool does not cache, with the pool lock free: the
    statements up to the constructor. *)
Lemma run_call_to_ctor n tid key arg g :
  OrderedDict.get key (_cache (pool g)) = None ->
  atomic (pool g) = None ->
  run_call kind ctor (7 + n) tid (call key arg) g =
  run_call kind ctor n tid
    {| th_key := key; th_arg := arg; th_pc := P_ctor (length (heap g)) |}
    {| pool := pool_after_miss key (length (heap g)) (pool g);
       heap := heap g ++ [set_lock (Some (tid, 1)) (ThreadSafeObject.__init__ key)];
       world := world g; ctor_calls := ctor_calls g |}.
Proof.
  intros Hg Hat. destruct g as [[num d l] h w calls]. simpl in Hg, Hat. subst l.
  change (7 + n) with (S (S (S (S (S (S (S n))))))).
  erewrite run_call_S by reflexivity. norm.
  erewrite run_call_S by (simpl; rewrite Hg; reflexivity). norm.
  erewrite run_call_S by reflexivity. norm.
  erewrite run_call_S by reflexivity. norm.
  erewrite run_call_S.
  2:{ simpl. rewrite lookup_app_r, Nat.sub_diag by lia. simpl. reflexivity. }
  norm.
  assert (Hins : <[length h := set_lock (Some (tid, 1)) (ThreadSafeObject.__init__ key)]>
                   (h ++ [ThreadSafeObject.__init__ key])
                 = h ++ [set_lock (Some (tid, 1)) (ThreadSafeObject.__init__ key)]).
  { rewrite insert_app_r_alt, Nat.sub_diag by lia. done. }
  rewrite Hins.
  assert (Hget : OrderedDict.get key (_cache (set key (length h)
             (with_atomic (Some (tid, 1)) {| _cache_num := num; _cache := d; atomic := None |})))
             = Some (length h)) by (by apply set_new_get).
  erewrite run_call_S.
  2:{ simpl. rewrite lookup_app_r, Nat.sub_diag by lia. simpl.
      unfold OrderedDict.move_to_end. rewrite Hget. reflexivity. }
  norm.
  erewrite run_call_S.
  2:{ simpl. rewrite set_atomic. simpl. rewrite decide_True by done. reflexivity. }
  norm. do 2 f_equal.
  unfold pool_after_miss. rewrite !set_cache_atomic.
  unfold with_pool, with_heap, with_atomic, with_cache. norm.
  by rewrite set_cache_num.
Qed.


Lemma lookup_snoc_new {B} (l : list B) (y : B) : (l ++ [y]) !! length l = Some y.
Proof. by rewrite lookup_app_r, Nat.sub_diag by lia. Qed.

Lemma pool_after_miss_get key o (p : CachePool.t K) :
  OrderedDict.get key (_cache (pool_after_miss key o p)) = Some o.
Proof.
  unfold pool_after_miss. simpl. rewrite od_get_app, od_get_remove.
  rewrite decide_True by done. simpl. by rewrite decide_True.
Qed.

(** A call that misses and whose constructor raises: the exception reaches
    the caller, and the placeholder stays in the pool, never loaded. *)
Lemma call_miss_raise tid key arg g w' e :
  OrderedDict.get key (_cache (pool g)) = None ->
  atomic (pool g) = None ->
  ctor tid key arg (world g) = (w', Raise e) ->
  call_outcome kind ctor tid (call key arg) g =
  (Raise e,
   {| pool := pool_after_miss key (length (heap g)) (pool g);
      heap := heap g ++ [abandoned_object key];
      world := w'; ctor_calls := S (ctor_calls g) |}).
Proof.
  intros Hg Hat Hc. unfold call_outcome.
  rewrite (run_call_to_ctor 7) by done.
  erewrite run_call_S by (simpl; rewrite Hc; reflexivity). norm.
  erewrite run_call_S.
  2:{ simpl. rewrite lookup_snoc_new. simpl. rewrite decide_True by done. reflexivity. }
  norm. rewrite run_call_stop by reflexivity. simpl.
  rewrite insert_app_r_alt, Nat.sub_diag by lia. done.
Qed.


(** A call that finds the key cached under an object whose readiness event
    is not set never returns: it waits for the event, holding the pool
    lock. *)
Lemma call_hit_unloaded tid key arg g o :
  OrderedDict.get key (_cache (pool g)) = Some o ->
  atomic (pool g) = None ->
  is_loaded (heap g) o = false ->
  call_outcome kind ctor tid (call key arg) g =
  (Block, with_pool (with_atomic (Some (tid, 1)) (pool g)) g).
Proof.
  intros Hg Hat Hl. unfold call_outcome.
  erewrite run_call_S by (simpl; rewrite Hat; reflexivity). norm.
  erewrite run_call_S by (simpl; rewrite Hg; reflexivity). norm.
  rewrite run_call_stop by (simpl; by rewrite Hl). done.
Qed.

(** A call that misses and whose constructor returns [v]: the caller gets the
    new object, loaded with [v] and cached under the key. *)
Lemma call_miss_ret tid key arg g w' v :
  OrderedDict.get key (_cache (pool g)) = None ->
  atomic (pool g) = None ->
  ctor tid key arg (world g) = (w', Ret v) ->
  call_outcome kind ctor tid (call key arg) g =
  (Ret (match kind with
        | Embeddings => RetObj (Some v)
        | KBFaiss => RetItem (Some (length (heap g)))
        end),
   {| pool := pool_after_miss key (length (heap g)) (pool g);
      heap := heap g ++ [loaded_object key v];
      world := w'; ctor_calls := S (ctor_calls g) |}).
Proof.
  intros Hg Hat Hc. unfold call_outcome.
  rewrite (run_call_to_ctor 7) by done.
  erewrite run_call_S by (simpl; rewrite Hc; reflexivity). norm.
  erewrite run_call_S by reflexivity. norm.
  erewrite run_call_S by reflexivity. norm.
  rewrite !alter_app_r_alt, !Nat.sub_diag by (rewrite ?length_app; simpl; lia).
  cbn [alter list_alter].
  erewrite run_call_S.
  2:{ simpl. rewrite lookup_snoc_new. simpl. rewrite decide_True by done. reflexivity. }
  norm. rewrite insert_app_r_alt, Nat.sub_diag by lia.
  erewrite run_call_S by (norm_step; rewrite pool_after_miss_get; reflexivity).
  norm.
  erewrite run_call_S.
  2:{ simpl. unfold is_loaded. rewrite lookup_snoc_new. simpl. reflexivity. }
  norm. rewrite run_call_stop by reflexivity. simpl.
  unfold ret_of. rewrite lookup_snoc_new. simpl. by destruct kind.
Qed.

End SequentialCall.

(** ** What get, acquire and unload do to the pool *)
Section LookupClaims.
Context {K P : Type} `{EqDecision K}.
Implicit Types (k : K) (o : objref) (p : CachePool.t K).
Implicit Types (h : list (ThreadSafeObject.t K P)).

Lemma acquire_loaded h k p o :
  OrderedDict.get k (CachePool._cache p) = Some o ->
  CachePool.is_loaded h o = true ->
  CachePool.acquire h k p =
  (Ret o, CachePool.with_cache (OrderedDict.remove k (CachePool._cache p) ++ [(k, o)]) p).
Proof.
  intros Hg Hl. unfold CachePool.acquire, CachePool.get, OrderedDict.move_to_end.
  by rewrite Hg, Hl, Hg.
Qed.

(** C5 (amended): for a cached key, [get] returns the object only once its
    readiness event is set and blocks until then, and it leaves the ordering
    as it is; the key is moved to the most-recently-used end by [acquire]
    only. *)
Theorem C5_get_waits_and_keeps_order h k p o :
  OrderedDict.get k (CachePool._cache p) = Some o ->
  snd (CachePool.get h k p) = p /\
  fst (CachePool.get h k p) = (if CachePool.is_loaded h o then Ret (Some o) else Block) /\
  (CachePool.is_loaded h o = true ->
   exists p', CachePool.acquire h k p = (Ret o, p') /\
     CachePool.keys p' = filter (fun x => x <> k) (CachePool.keys p) ++ [k]).
Proof.
  intros Hg. split; [apply get_pool|]. split; [by apply get_Some|].
  intros Hl. eexists. split; [by apply acquire_loaded|].
  unfold CachePool.keys, OrderedDict.keys. simpl.
  rewrite map_app. simpl. f_equal. apply od_keys_remove.
Qed.

(** C8 (amended): unloading a cached, loaded entry removes it from the dict
    without reading or taking the entry's lock: the call completes whoever
    holds that lock, and so does [pop]. *)
Theorem C8_unload_takes_no_object_lock h k p o :
  OrderedDict.get k (CachePool._cache p) = Some o ->
  CachePool.is_loaded h o = true ->
  CachePool.unload_vector_store h k p =
    (Ret tt, CachePool.with_cache (OrderedDict.remove k (CachePool._cache p)) p) /\
  CachePool.pop (Some k) p =
    (Ret (CachePool.Popped_obj (Some o)),
     CachePool.with_cache (OrderedDict.remove k (CachePool._cache p)) p) /\
  OrderedDict.get k (OrderedDict.remove k (CachePool._cache p)) = None.
Proof.
  intros Hg Hl. split_and!.
  - unfold CachePool.unload_vector_store, CachePool.get. by rewrite Hg, Hl.
  - unfold CachePool.pop, OrderedDict.pop. by rewrite Hg.
  - rewrite od_get_remove. by rewrite decide_True.
Qed.

End LookupClaims.

(** C5 (counterexample): with A and B cached and loaded, A the older one,
    [get] of A returns A's object and leaves B at the most-recently-used
    end. *)
Lemma C5_get_does_not_mark_recency :
  CachePool.get [Demo.idle "A"; Demo.idle "B"] "A" (Demo.pool_of 2 [("A", 0); ("B", 1)])
    = (Ret (Some 0), Demo.pool_of 2 [("A", 0); ("B", 1)]) /\
  last (CachePool.keys (snd (CachePool.get [Demo.idle "A"; Demo.idle "B"] "A"
                               (Demo.pool_of 2 [("A", 0); ("B", 1)])))) <> Some "A".
Proof. split; [reflexivity|]. vm_compute. discriminate. Qed.

(** C8 (counterexample): thread 7 is inside [with obj.acquire()] on the
    object of "kb", so thread 3 cannot take that lock; its
    [unload_vector_store] completes all the same and the entry is gone. *)
Lemma C8_unload_while_object_in_use :
  RLock.acquire 3 (ThreadSafeObject._lock (Demo.in_use "kb" 7)) = None /\
  CachePool.unload_vector_store [Demo.in_use "kb" 7] "kb" (Demo.pool_of 2 [("kb", 0)])
    = (Ret tt, Demo.pool_of 2 []).
Proof. split; reflexivity. Qed.

(** ** Executions that show what goes wrong *)

(** Two threads ask for A and the constructor returns: along this schedule
    thread 1 waits for the object thread 0 builds, and both return its
    payload; the constructor has run once. *)
Example two_callers_one_construction :
  Machine.run Machine.Embeddings Demo.ctor_ok Demo.sched_share (Demo.start 1 ["A"; "A"])
    = Some Demo.shared_done.
Proof. vm_compute. reflexivity. Qed.

(** C2 (counterexample): bound 1; thread 0 has inserted the placeholder of A
    and is about to run its constructor when thread 1 inserts B. The capacity
    check of that insertion removes A, whose readiness event is not set. *)
Lemma C2_evicts_entry_under_construction :
  Machine.run Machine.Embeddings Demo.ctor_ok Demo.sched_evict (Demo.start 1 ["A"; "B"])
    = Some Demo.evicting /\
  OrderedDict.get "A" (CachePool._cache (Machine.pool (Machine.sh Demo.evicting))) = Some 0 /\
  CachePool.is_loaded (Machine.heap (Machine.sh Demo.evicting)) 0 = false /\
  CachePool._cache (CachePool.set "B" 1 (Machine.pool (Machine.sh Demo.evicting)))
    = [("B", 1)].
Proof. split_and!; vm_compute; reflexivity. Qed.

(** C1 (counterexample): two threads call [load_vector_store] with
    create=False for one vector store that is not on disk, so the
    constructor raises. Its body has run once, but no caller receives a
    handle: thread 0 gets the exception, thread 1 waits for the placeholder,
    and no thread can move any more. *)
Lemma C1_raising_constructor_gives_no_handle :
  OneKey.Init ("kb1", "default") Demo.kb_start_nocreate /\
  Machine.run Machine.KBFaiss Demo.kb_build Demo.sched_fail Demo.kb_start_nocreate
    = Some Demo.kb_not_found /\
  Machine.stuck Machine.KBFaiss Demo.kb_build Demo.kb_not_found /\
  Machine.ctor_calls (Machine.sh Demo.kb_not_found) = 1 /\
  forall i t, Machine.threads Demo.kb_not_found !! i = Some t ->
    forall r, Machine.th_pc t <> Machine.P_done r.
Proof.
  split_and!.
  - split; try reflexivity; [discriminate|].
    intros [|[|i]] t; simpl; intros [= <-]; reflexivity.
  - vm_compute. reflexivity.
  - intros [|[|i]]; vm_compute; reflexivity.
  - reflexivity.
  - intros [|[|i]] t; simpl; intros [= <-] r; discriminate.
Qed.

(** C4: two threads ask for A and the constructor raises in thread 0. The
    exception reaches thread 0 only. The placeholder stays cached with its
    readiness event unset, thread 1 waits for that event while it holds the
    pool lock, and no thread can move any more. *)
Theorem C4_failed_construction_blocks_waiters :
  Machine.run Machine.Embeddings Demo.ctor_fail Demo.sched_fail (Demo.start 1 ["A"; "A"])
    = Some Demo.blocked /\
  Machine.stuck Machine.Embeddings Demo.ctor_fail Demo.blocked /\
  Machine.th_pc <$> Machine.threads Demo.blocked !! 0
    = Some (Machine.P_raised (OtherError "model files missing")) /\
  Machine.th_pc <$> Machine.threads Demo.blocked !! 1 = Some (Machine.P_get_wait 0) /\
  CachePool.atomic (Machine.pool (Machine.sh Demo.blocked)) = Some (1, 1) /\
  OrderedDict.get "A" (CachePool._cache (Machine.pool (Machine.sh Demo.blocked))) = Some 0 /\
  CachePool.is_loaded (Machine.heap (Machine.sh Demo.blocked)) 0 = false.
Proof.
  split; [vm_compute; reflexivity|]. split; [|split_and!; vm_compute; reflexivity].
  intros [|[|i]]; vm_compute; reflexivity.
Qed.

(** The same defect seen by one caller: the first call raises, the second
    call for the same key never returns. *)
Lemma failed_construction_then_block :
  Machine.call_outcome Machine.Embeddings Demo.ctor_fail 0 (Machine.call "A" tt) (Demo.fresh 1)
    = (Raise (OtherError "model files missing"), Demo.after_failure) /\
  fst (Machine.call_outcome Machine.Embeddings Demo.ctor_fail 0 (Machine.call "A" tt)
         Demo.after_failure) = Block.
Proof. split; vm_compute; reflexivity. Qed.

(** ** The embeddings pool ignores the caller's device *)
Section EmbeddingsClaims.
Import Machine.
Context {P W : Type}.
Variable EMBEDDING_MODEL : string.
Variable embedding_device : string.
Variable get_model_path : string -> string.
Variable CHUNK_SIZE : Z.
Variable OpenAIEmbeddings : string -> string -> Z -> W -> W * (P + exn).
Variable HuggingFaceBgeEmbeddings : string -> string -> string -> W -> W * (P + exn).
Variable HuggingFaceEmbeddings : string -> string -> W -> W * (P + exn).
Variable set_query_instruction : string -> P -> P.

(** C10: whatever device the caller passes, [load_embeddings] uses the key
    made of the model and the configured device, starts the same call, and
    run by itself in any state of the pool it has the same outcome and
    leaves the same state. *)
Theorem C10_device_argument_ignored (model d1 d2 : option string) tid
    (g : shared (K:=string * string) (P:=P) (W:=W)) :
  EmbeddingsPool.key_of EMBEDDING_MODEL embedding_device model d1
    = (py_or model EMBEDDING_MODEL, embedding_device) /\
  EmbeddingsPool.key_of EMBEDDING_MODEL embedding_device model d1
    = EmbeddingsPool.key_of EMBEDDING_MODEL embedding_device model d2 /\
  EmbeddingsPool.load_embeddings (P:=P) EMBEDDING_MODEL embedding_device model d1
    = EmbeddingsPool.load_embeddings EMBEDDING_MODEL embedding_device model d2 /\
  EmbeddingsPool.load_embeddings_outcome EMBEDDING_MODEL embedding_device get_model_path
      CHUNK_SIZE OpenAIEmbeddings HuggingFaceBgeEmbeddings HuggingFaceEmbeddings
      set_query_instruction tid model d1 g
    = EmbeddingsPool.load_embeddings_outcome EMBEDDING_MODEL embedding_device get_model_path
      CHUNK_SIZE OpenAIEmbeddings HuggingFaceBgeEmbeddings HuggingFaceEmbeddings
      set_query_instruction tid model d2 g.
Proof. by split_and!. Qed.

End EmbeddingsClaims.

(** ** Loading a knowledge base that has no index on disk *)
Section FaissClaims.
Import ThreadSafeObject CachePool Machine Faiss.
Context {E WE : Type}.
Variable EmbeddingsFunAdapter : string -> E.
Variable list_online_embed_models : list string.
Variable EMBEDDING_MODEL : string.
Variable embedding_device : string.
Variable get_model_path : string -> string.
Variable CHUNK_SIZE : Z.
Variable OpenAIEmbeddings : string -> string -> Z -> WE -> WE * (E + exn).
Variable HuggingFaceBgeEmbeddings : string -> string -> string -> WE -> WE * (E + exn).
Variable HuggingFaceEmbeddings : string -> string -> WE -> WE * (E + exn).
Variable set_query_instruction : string -> E -> E.
Variable get_vs_path : string -> string -> string.
Variable embed_documents : E -> list string -> option exn.
Variable uuid4 : nat -> string.






(** After the call with create=False has raised, the placeholder it leaves
    behind makes every later call for the key wait for ever, create=True
    included. *)
Lemma not_found_then_blocked tid kb_name vector_name embed_model embed_device create
    (g : shared (K:=string * string) (P:=FAISS (E:=E)) (W:=World (E:=E) (WE:=WE))) :
  OrderedDict.get (kb_name, py_or vector_name embed_model) (_cache (pool g)) = None ->
  atomic (pool g) = None ->
  isfile (disk (world g))
    (path_join (get_vs_path kb_name (py_or vector_name embed_model)) "index.faiss") = false ->
  fst (Faiss.load_vector_store_outcome EmbeddingsFunAdapter list_online_embed_models
         EMBEDDING_MODEL embedding_device get_model_path CHUNK_SIZE OpenAIEmbeddings
         HuggingFaceBgeEmbeddings HuggingFaceEmbeddings set_query_instruction get_vs_path
         embed_documents uuid4 tid kb_name vector_name create embed_model embed_device
         (snd (Faiss.load_vector_store_outcome EmbeddingsFunAdapter
                 list_online_embed_models EMBEDDING_MODEL embedding_device get_model_path
                 CHUNK_SIZE OpenAIEmbeddings HuggingFaceBgeEmbeddings
                 HuggingFaceEmbeddings set_query_instruction get_vs_path embed_documents
                 uuid4 tid kb_name vector_name false embed_model embed_device g)))
    = Block.
Proof.
  intros Hg Hat Hfile. unfold Faiss.load_vector_store_outcome, load_vector_store.
  erewrite (call_miss_raise _ _ _ _ _ g); [|done..|unfold build; by rewrite Hfile].
  cbn [snd]. erewrite call_hit_unloaded; [done|apply pool_after_miss_get|done|].
  cbn [heap]. unfold is_loaded. by rewrite lookup_snoc_new.
Qed.

End FaissClaims.

(** ** The theorems at concrete inputs *)

(** C1 at concrete inputs: three callers of [load_embeddings] for the model
    bge-large-zh, with different device arguments; and two callers of
    [load_vector_store] for one vector store that is not on disk, with
    create=True. *)
Lemma C1_witness :
  (OneKey.Init ("bge-large-zh", "cpu") Demo.emb_start /\
   (forall i t, Machine.threads Demo.emb_start !! i = Some t ->
      exists w' v, Demo.emb_build i ("bge-large-zh", "cpu") (Machine.th_arg t)
                     (Machine.world (Machine.sh Demo.emb_start)) = (w', Ret v)) /\
   (forall n s,
      nsteps (Machine.step Machine.Embeddings Demo.emb_build) n Demo.emb_start s ->
      n <= 13 * length (Machine.threads Demo.emb_start) /\
      Machine.ctor_calls (Machine.sh s) <= 1) /\
   (forall s i t,
      rtc (Machine.step Machine.Embeddings Demo.emb_build) Demo.emb_start s ->
      Machine.threads s !! i = Some t -> (forall r, Machine.th_pc t <> Machine.P_done r) ->
      exists s', Machine.step Machine.Embeddings Demo.emb_build s s') /\
   (forall s,
      rtc (Machine.step Machine.Embeddings Demo.emb_build) Demo.emb_start s ->
      Machine.stuck Machine.Embeddings Demo.emb_build s ->
      Machine.ctor_calls (Machine.sh s) = 1 /\
      exists o v, OneKey.present ("bge-large-zh", "cpu") (Machine.sh s) o /\
        OneKey.ready (Machine.sh s) o v /\
        OneKey.all_returned Machine.Embeddings s o v)) /\
  (OneKey.Init ("kb1", "default") Demo.kb_start /\
   (forall i t, Machine.threads Demo.kb_start !! i = Some t ->
      exists w' v, Demo.kb_build i ("kb1", "default") (Machine.th_arg t)
                     (Machine.world (Machine.sh Demo.kb_start)) = (w', Ret v)) /\
   (forall n s,
      nsteps (Machine.step Machine.KBFaiss Demo.kb_build) n Demo.kb_start s ->
      n <= 13 * length (Machine.threads Demo.kb_start) /\
      Machine.ctor_calls (Machine.sh s) <= 1) /\
   (forall s i t,
      rtc (Machine.step Machine.KBFaiss Demo.kb_build) Demo.kb_start s ->
      Machine.threads s !! i = Some t -> (forall r, Machine.th_pc t <> Machine.P_done r) ->
      exists s', Machine.step Machine.KBFaiss Demo.kb_build s s') /\
   (forall s,
      rtc (Machine.step Machine.KBFaiss Demo.kb_build) Demo.kb_start s ->
      Machine.stuck Machine.KBFaiss Demo.kb_build s ->
      Machine.ctor_calls (Machine.sh s) = 1 /\
      exists o v, OneKey.present ("kb1", "default") (Machine.sh s) o /\
        OneKey.ready (Machine.sh s) o v /\
        OneKey.all_returned Machine.KBFaiss s o v)).
Proof.
  assert (Hc : forall i t, Machine.threads Demo.emb_start !! i = Some t ->
             exists w' v, Demo.emb_build i ("bge-large-zh", "cpu") (Machine.th_arg t)
                            (Machine.world (Machine.sh Demo.emb_start)) = (w', Ret v)).
  { intros i t _. eexists _, _. reflexivity. }
  assert (Hi : OneKey.Init ("bge-large-zh", "cpu") Demo.emb_start).
  { split; try reflexivity; [discriminate|].
    intros [|[|[|i]]] t; simpl; intros [= <-]; reflexivity. }
  assert (Hc' : forall i t, Machine.threads Demo.kb_start !! i = Some t ->
             exists w' v, Demo.kb_build i ("kb1", "default") (Machine.th_arg t)
                            (Machine.world (Machine.sh Demo.kb_start)) = (w', Ret v)).
  { intros [|[|i]] t; simpl; intros [= <-]; eexists _, _; reflexivity. }
  assert (Hi' : OneKey.Init ("kb1", "default") Demo.kb_start).
  { split; try reflexivity; [discriminate|].
    intros [|[|i]] t; simpl; intros [= <-]; reflexivity. }
  split.
  - split; [exact Hi|]. split; [exact Hc|].
    exact (C1_single_construction Machine.Embeddings Demo.emb_build
             ("bge-large-zh", "cpu") Demo.emb_start Hi Hc).
  - split; [exact Hi'|]. split; [exact Hc'|].
    exact (C1_single_construction Machine.KBFaiss Demo.kb_build
             ("kb1", "default") Demo.kb_start Hi' Hc').
Defined.

(** C2 at a concrete input. *)
Lemma C2_witness :
  OrderedDict.get "B" (CachePool._cache (Demo.pool_of 1 [("A", 0)])) = None /\
  evicted_count 1 2 <= 1 /\
  CachePool._cache (CachePool.set "B" 1 (Demo.pool_of 1 [("A", 0)])) = [] ++ [("B", 1)] /\
  OrderedDict.get "B" (CachePool._cache (CachePool.set "B" 1 (Demo.pool_of 1 [("A", 0)])))
    = Some 1.
Proof.
  split; [reflexivity|].
  apply (C2_eviction_is_oldest_first "B" 1 (Demo.pool_of 1 [("A", 0)])). reflexivity.
Defined.

(** C3 at a concrete input. *)
Lemma C3_witness :
  (0 < 2)%Z /\
  CachePool.__init__ 2 = Ret (Demo.pool_of 2 []) /\
  (Z.of_nat (length (CachePool._cache (snd (Ops.apply_all
     [Ops.Op_set "A" 0; Ops.Op_set "B" 1; Ops.Op_acquire "A"; Ops.Op_set "C" 2;
      Ops.Op_pop None; Ops.Op_set "D" 3]
     ([Demo.idle "A"; Demo.idle "B"; Demo.idle "C"; Demo.idle "D"], Demo.pool_of 2 []))))) <= 2)%Z.
Proof.
  split; [reflexivity|]. split; [reflexivity|].
  apply C3_entries_never_exceed_bound; reflexivity.
Defined.

(** C5 at a concrete input. *)
Lemma C5_witness :
  OrderedDict.get "A" (CachePool._cache (Demo.pool_of 2 [("A", 0); ("B", 1)])) = Some 0 /\
  snd (CachePool.get [Demo.idle "A"; Demo.loading "B" 4] "A" (Demo.pool_of 2 [("A", 0); ("B", 1)]))
    = Demo.pool_of 2 [("A", 0); ("B", 1)] /\
  fst (CachePool.get [Demo.idle "A"; Demo.loading "B" 4] "A" (Demo.pool_of 2 [("A", 0); ("B", 1)]))
    = (if CachePool.is_loaded [Demo.idle "A"; Demo.loading "B" 4] 0
       then Ret (Some 0) else Block) /\
  CachePool.is_loaded [Demo.idle "A"; Demo.loading "B" 4] 0 = true /\
  (exists p', CachePool.acquire [Demo.idle "A"; Demo.loading "B" 4] "A"
                (Demo.pool_of 2 [("A", 0); ("B", 1)]) = (Ret 0, p') /\
     CachePool.keys p' =
       filter (fun x => x <> "A") (CachePool.keys (Demo.pool_of 2 [("A", 0); ("B", 1)])) ++ ["A"]).
Proof.
  assert (Hg : OrderedDict.get "A" (CachePool._cache (Demo.pool_of 2 [("A", 0); ("B", 1)]))
               = Some 0) by reflexivity.
  assert (Hl : CachePool.is_loaded [Demo.idle "A"; Demo.loading "B" 4] 0 = true)
    by reflexivity.
  destruct (C5_get_waits_and_keeps_order [Demo.idle "A"; Demo.loading "B" 4] "A"
              (Demo.pool_of 2 [("A", 0); ("B", 1)]) 0 Hg)
    as (Hpool & Hret & Hacq).
  split; [exact Hg|]. split; [exact Hpool|]. split; [exact Hret|].
  split; [exact Hl|]. exact (Hacq Hl).
Defined.

(** C6 at a concrete input. *)
Lemma C6_witness :
  CachePool.__init__ 2 = Ret (Demo.pool_of 2 []) /\
  "A" <> "B" /\ "A" <> "C" /\ "B" <> "C" /\
  CachePool.keys (CachePool.set "B" 1 (CachePool.set "A" 0 (Demo.pool_of 2 []))) = ["A"; "B"] /\
  CachePool.keys (CachePool.set "C" 2 (CachePool.set "B" 1 (CachePool.set "A" 0 (Demo.pool_of 2 []))))
    = ["B"; "C"] /\
  CachePool.get [Demo.idle "A"; Demo.idle "B"; Demo.idle "C"] "A"
    (CachePool.set "C" 2 (CachePool.set "B" 1 (CachePool.set "A" 0 (Demo.pool_of 2 []))))
    = (Ret None,
       CachePool.set "C" 2 (CachePool.set "B" 1 (CachePool.set "A" 0 (Demo.pool_of 2 [])))).
Proof.
  split; [reflexivity|]. split; [discriminate|]. split; [discriminate|].
  split; [discriminate|].
  apply (C6_bound_two_keeps_last_two "A" "B" "C" 0 1 2 (Demo.pool_of 2 [])
           [Demo.idle "A"; Demo.idle "B"; Demo.idle "C"]);
    [reflexivity|discriminate..].
Defined.

(** C8 at a concrete input. *)
Lemma C8_witness :
  OrderedDict.get "kb" (CachePool._cache (Demo.pool_of 2 [("kb", 0)])) = Some 0 /\
  CachePool.is_loaded [Demo.in_use "kb" 7] 0 = true /\
  CachePool.unload_vector_store [Demo.in_use "kb" 7] "kb" (Demo.pool_of 2 [("kb", 0)])
    = (Ret tt, CachePool.with_cache
                 (OrderedDict.remove "kb" (CachePool._cache (Demo.pool_of 2 [("kb", 0)])))
                 (Demo.pool_of 2 [("kb", 0)])) /\
  CachePool.pop (Some "kb") (Demo.pool_of 2 [("kb", 0)])
    = (Ret (CachePool.Popped_obj (Some 0)),
       CachePool.with_cache
         (OrderedDict.remove "kb" (CachePool._cache (Demo.pool_of 2 [("kb", 0)])))
         (Demo.pool_of 2 [("kb", 0)])) /\
  OrderedDict.get "kb"
    (OrderedDict.remove "kb" (CachePool._cache (Demo.pool_of 2 [("kb", 0)]))) = None.
Proof.
  split; [reflexivity|]. split; [reflexivity|].
  apply (C8_unload_takes_no_object_lock [Demo.in_use "kb" 7] "kb"
           (Demo.pool_of 2 [("kb", 0)]) 0); reflexivity.
Defined.

(** C9 at a concrete input. *)
Lemma C9_witness :
  (-1 <= 0)%Z /\
  (exists p0 : CachePool.t string,
     CachePool.__init__ (-1) = Ret p0 /\ CachePool._cache_num p0 = (-1)%Z) /\
  (forall (p : CachePool.t string) k o,
     CachePool._cache_num p = (-1)%Z ->
     CachePool._cache (CachePool.set k o p) = OrderedDict.setitem k o (CachePool._cache p) /\
     CachePool._cache_num (CachePool.set k o p) = (-1)%Z).
Proof.
  split; [discriminate|].
  apply (C9_nonpositive_bound_never_evicts (K:=string) (-1)). discriminate.
Defined.


(** * Further properties of the pool *)

Lemma od_keys_setitem_present {K V : Type} `{EqDecision K} (k : K) (v v' : V)
    (d : list (K * V)) :
  OrderedDict.get k d = Some v ->
  OrderedDict.keys (OrderedDict.setitem k v' d) = OrderedDict.keys d.
Proof.
  unfold OrderedDict.keys. induction d as [|[k0 v0] d IH]; simpl; [done|].
  destruct (decide (k = k0)) as [->|Hne]; simpl; [done|].
  intros Hg. by rewrite IH.
Qed.

Section PoolMore.
Context {K P : Type} `{EqDecision K}.
Implicit Types (k : K) (o : objref) (d : list (K * objref)) (p : CachePool.t K).
Implicit Types (h : list (ThreadSafeObject.t K P)).

Lemma od_get_drop_Some k o (m : nat) d :
  OrderedDict.get k (drop m d) = Some o -> exists o', OrderedDict.get k d = Some o'.
Proof.
  revert m. induction d as [|[k' v'] d IH]; intros [|m]; simpl; try done; eauto.
  destruct (decide (k = k')); eauto.
Qed.

(** X1: removing a key: [pop(key)] hands back what was stored, a [get] that
    follows finds nothing, and the other keys keep their objects and their
    order. *)
Theorem pop_then_get h k p :
  fst (CachePool.pop (Some k) p)
    = Ret (CachePool.Popped_obj (OrderedDict.get k (CachePool._cache p))) /\
  CachePool.get h k (snd (CachePool.pop (Some k) p))
    = (Ret None, snd (CachePool.pop (Some k) p)) /\
  CachePool.keys (snd (CachePool.pop (Some k) p))
    = filter (fun x => x <> k) (CachePool.keys p) /\
  forall k', OrderedDict.get k' (CachePool._cache (snd (CachePool.pop (Some k) p)))
             = if decide (k' = k) then None else OrderedDict.get k' (CachePool._cache p).
Proof.
  unfold CachePool.pop, OrderedDict.pop. simpl. split_and!.
  - done.
  - apply get_None. simpl. rewrite od_get_remove. by rewrite decide_True.
  - apply od_keys_remove.
  - intros k'. apply od_get_remove.
Qed.

(** X2: [acquire] only reorders: whatever it returns, every key maps to the
    object it mapped to before, the bound and the pool lock are as before;
    and it returns the object of a cached, loaded key, raises for a key that
    is not cached, and waits for one that is not loaded. *)
Theorem acquire_keeps_lookups h k p :
  (forall k', OrderedDict.get k' (CachePool._cache (snd (CachePool.acquire h k p)))
              = OrderedDict.get k' (CachePool._cache p)) /\
  length (CachePool._cache (snd (CachePool.acquire h k p))) <= length (CachePool._cache p) /\
  CachePool._cache_num (snd (CachePool.acquire h k p)) = CachePool._cache_num p /\
  CachePool.atomic (snd (CachePool.acquire h k p)) = CachePool.atomic p /\
  fst (CachePool.acquire h k p)
    = match OrderedDict.get k (CachePool._cache p) with
      | None => Raise (RuntimeError "resource does not exist")
      | Some o => if CachePool.is_loaded h o then Ret o else Block
      end.
Proof.
  unfold CachePool.acquire, CachePool.get.
  destruct (OrderedDict.get k (CachePool._cache p)) as [o|] eqn:Hg; simpl; [|done].
  destruct (CachePool.is_loaded h o); simpl; [|done].
  destruct (od_move_to_end_is_Some _ _ _ Hg) as [d' Hd']. rewrite Hd'. simpl.
  split_and!; try done.
  - intros k'. by apply (od_get_move_to_end k).
  - by apply (od_move_to_end_length k).
Qed.

(** X3: setting a key that is cached already, in a pool within its bound:
    the new object replaces the old one at the same place of the ordering
    (the key is not moved to the most-recently-used end) and nothing is
    evicted. *)
Theorem set_cached_key_keeps_place k o o' p :
  OrderedDict.get k (CachePool._cache p) = Some o ->
  (Z.of_nat (length (CachePool._cache p)) <= CachePool._cache_num p)%Z \/
    (CachePool._cache_num p <= 0)%Z ->
  CachePool.keys (CachePool.set k o' p) = CachePool.keys p /\
  forall k', OrderedDict.get k' (CachePool._cache (CachePool.set k o' p))
             = if decide (k' = k) then Some o' else OrderedDict.get k' (CachePool._cache p).
Proof.
  intros Hg Hb.
  assert (Hc : CachePool._cache (CachePool.set k o' p)
               = OrderedDict.setitem k o' (CachePool._cache p)).
  { rewrite set_cache, od_setitem_length, Hg. unfold evicted_count.
    destruct (Z.ltb_spec 0 (CachePool._cache_num p)); [|done].
    replace (length (CachePool._cache p) - Z.to_nat (CachePool._cache_num p)) with 0 by lia.
    done. }
  unfold CachePool.keys. rewrite Hc. split.
  - by eapply od_keys_setitem_present.
  - intros k'. apply od_get_setitem.
Qed.

(** The objects a pool holds after new keys have been set one after the
    other. *)
Lemma set_new_keys_cache (kvs : list (K * objref)) p :
  (0 < CachePool._cache_num p)%Z ->
  (Z.of_nat (length (CachePool._cache p)) <= CachePool._cache_num p)%Z ->
  NoDup (map fst kvs) ->
  (forall kv, kv ∈ kvs -> OrderedDict.get (fst kv) (CachePool._cache p) = None) ->
  CachePool._cache (foldl (fun q kv => CachePool.set (fst kv) (snd kv) q) p kvs)
  = drop (length (CachePool._cache p) + length kvs - Z.to_nat (CachePool._cache_num p))
         (CachePool._cache p ++ kvs) /\
  CachePool._cache_num (foldl (fun q kv => CachePool.set (fst kv) (snd kv) q) p kvs)
  = CachePool._cache_num p.
Proof.
  revert p. induction kvs as [|[k o] kvs IH]; intros p Hn Hlen Hnd Hnew.
  - simpl. rewrite app_nil_r, Nat.add_0_r.
    replace (length (CachePool._cache p) - Z.to_nat (CachePool._cache_num p)) with 0 by lia.
    done.
  - simpl in Hnd. apply NoDup_cons in Hnd as [Hk Hnd].
    assert (Hknew : OrderedDict.get k (CachePool._cache p) = None)
      by apply (Hnew (k, o)), list_elem_of_here.
    cbn [foldl fst snd].
    assert (Hc := set_new_cache k o p Hknew).
    specialize (IH (CachePool.set k o p)).
    rewrite set_cache_num in IH.
    destruct IH as [IH1 IH2]; [done| |done| |].
    + pose proof (set_bound k o p Hn). lia.
    + intros [k' o'] Hin. simpl. rewrite Hc, od_get_app. simpl.
      rewrite od_get_drop_None by apply (Hnew (k', o')), list_elem_of_further, Hin.
      rewrite decide_False; [done|]. intros ->. apply Hk.
      apply list_elem_of_fmap. by exists (k, o').
    + split; [|done]. rewrite IH1, Hc. unfold evicted_count.
      destruct (Z.ltb_spec 0 (CachePool._cache_num p)); [|lia].
      set (n := Z.to_nat (CachePool._cache_num p)).
      set (c := CachePool._cache p).
      assert (Hcn : length c <= n) by (subst c n; lia).
      set (e := S (length c) - n).
      assert (He : e <= length c) by (subst e; lia).
      rewrite length_app, length_drop. simpl.
      rewrite <- (app_assoc (drop e c)). simpl.
      rewrite <- (drop_app_le c ((k, o) :: kvs) e) by done.
      rewrite drop_drop. f_equal. subst e. lia.
Qed.

(** X4: least-recently-used order through [acquire]: after [acquire(k)] on a pool
    within its positive bound n, setting fewer than n new keys keeps k, and
    setting n new keys, or more, evicts it. *)
Theorem acquire_then_new_keys h k o p (kvs : list (K * objref)) :
  (0 < CachePool._cache_num p)%Z ->
  (Z.of_nat (length (CachePool._cache p)) <= CachePool._cache_num p)%Z ->
  OrderedDict.get k (CachePool._cache p) = Some o ->
  CachePool.is_loaded h o = true ->
  NoDup (map fst kvs) ->
  (forall kv, kv ∈ kvs -> OrderedDict.get (fst kv) (CachePool._cache p) = None) ->
  OrderedDict.get k (CachePool._cache
    (foldl (fun q kv => CachePool.set (fst kv) (snd kv) q)
           (snd (CachePool.acquire h k p)) kvs))
  = if decide (length kvs < Z.to_nat (CachePool._cache_num p)) then Some o else None.
Proof.
  intros Hn Hlen Hg Hl Hnd Hnew.
  rewrite (acquire_loaded h k p o Hg Hl). cbn [snd].
  set (c1 := OrderedDict.remove k (CachePool._cache p) ++ [(k, o)]).
  assert (Hc1len : S (length (OrderedDict.remove k (CachePool._cache p)))
                   <= length (CachePool._cache p)) by by eapply od_remove_length_lt.
  assert (Hknew : forall kv, kv ∈ kvs -> fst kv <> k).
  { intros kv Hin Heq. specialize (Hnew kv Hin). rewrite Heq in Hnew. congruence. }
  destruct (set_new_keys_cache kvs (CachePool.with_cache c1 p)) as [Hc _]; simpl.
  - done.
  - subst c1. rewrite length_app. simpl. lia.
  - done.
  - intros kv Hin. subst c1. rewrite od_get_app, od_get_remove. simpl.
    rewrite !decide_False by by apply Hknew. by rewrite Hnew.
  - simpl in Hc. rewrite Hc. clear Hc.
    set (n := Z.to_nat (CachePool._cache_num p)).
    set (r := OrderedDict.remove k (CachePool._cache p)) in *.
    assert (Hkr : OrderedDict.get k r = None).
    { subst r. rewrite od_get_remove. by rewrite decide_True. }
    assert (Hkk : OrderedDict.get k kvs = None).
    { clear -Hknew. induction kvs as [|[k' o'] kvs IH]; simpl; [done|].
      rewrite decide_False.
      - apply IH. intros kv Hin. apply Hknew. by apply list_elem_of_further.
      - intros ->. exact (Hknew (k', o') (list_elem_of_here _ _) eq_refl). }
    subst c1. rewrite length_app. simpl.
    assert (length r + 1 <= n) by (subst n; lia).
    destruct (decide (length kvs < n)) as [Hlt|Hge].
    + rewrite <- app_assoc. rewrite drop_app_le by lia.
      rewrite od_get_app, od_get_drop_None by done. simpl. by rewrite decide_True.
    + rewrite <- app_assoc.
      rewrite drop_app_ge by lia. simpl.
      destruct (length r + 1 + length kvs - n - length r) as [|m] eqn:Hm; [lia|].
      simpl. by apply od_get_drop_None.
Qed.

End PoolMore.

(** ** Calls that find the key cached, and calls that follow one another *)
Section CallsMore.
Import ThreadSafeObject CachePool Machine.
Context {K P A W : Type} `{EqDecision K}.
Variable kind : pool_kind.
Variable ctor : nat -> K -> A -> W -> W * outcome P.

Implicit Types (g : shared (K:=K) (P:=P) (W:=W)) (o : objref) (c : pc (P:=P)).
Implicit Types (t : thread (K:=K) (P:=P) (A:=A)).

Ltac snorm :=
  cbn [lstep at_pc call th_key th_arg th_pc with_pool with_heap with_atomic with_cache
       constructed heap pool world ctor_calls _cache _cache_num atomic].

Lemma call_hit_loaded tid key arg g o :
  OrderedDict.get key (_cache (pool g)) = Some o ->
  atomic (pool g) = None ->
  is_loaded (heap g) o = true ->
  call_outcome kind ctor tid (call key arg) g = (Ret (ret_of kind (heap g) o), g).
Proof.
  intros Hg Hat Hl. unfold call_outcome.
  destruct g as [[num d l] h w calls]. simpl in Hg, Hat, Hl. subst l.
  erewrite run_call_S by reflexivity. snorm.
  erewrite run_call_S by (snorm; rewrite Hg; reflexivity). snorm.
  erewrite run_call_S by (snorm; rewrite Hl; reflexivity). snorm.
  erewrite run_call_S by (snorm; simpl; rewrite decide_True by done; reflexivity). snorm.
  erewrite run_call_S by (snorm; rewrite Hg; reflexivity). snorm.
  erewrite run_call_S by (snorm; rewrite Hl; reflexivity). snorm.
  rewrite run_call_stop by reflexivity. done.
Qed.

(** X5: a call for a key that is cached and loaded returns the cached object
    ([load_embeddings] its payload) and leaves everything as it was: the
    constructor does not run, the world outside the pool is not touched, no
    lock stays held, and the ordering of the keys is not changed (a hit does
    not mark the key as recently used). *)
Theorem call_on_loaded_key tid key arg g o :
  OrderedDict.get key (_cache (pool g)) = Some o ->
  atomic (pool g) = None ->
  is_loaded (heap g) o = true ->
  call_outcome kind ctor tid (call key arg) g
  = (Ret (match kind with
          | Embeddings => RetObj (x ← heap g !! o; _obj x)
          | KBFaiss => RetItem (Some o)
          end), g).
Proof. intros Hg Hat Hl. by rewrite (call_hit_loaded tid key arg g o). Qed.

(** X6: a call that misses and constructs, followed by a call for the same key
    by any thread with any argument: the second call returns what the first
    returned and changes nothing; the constructor has run once. *)
Theorem second_call_reuses tid tid' key arg arg' g w' v :
  OrderedDict.get key (_cache (pool g)) = None ->
  atomic (pool g) = None ->
  ctor tid key arg (world g) = (w', Ret v) ->
  call_outcome kind ctor tid' (call key arg')
    (snd (call_outcome kind ctor tid (call key arg) g))
  = call_outcome kind ctor tid (call key arg) g /\
  ctor_calls (snd (call_outcome kind ctor tid (call key arg) g)) = S (ctor_calls g).
Proof.
  intros Hg Hat Hc.
  rewrite (call_miss_ret kind ctor tid key arg g w' v Hg Hat Hc). cbn [snd].
  split; [|done].
  erewrite call_hit_loaded.
  - f_equal. unfold ret_of. snorm. rewrite lookup_snoc_new. simpl. by destruct kind.
  - snorm. apply pool_after_miss_get.
  - done.
  - unfold is_loaded. snorm. by rewrite lookup_snoc_new.
Qed.

(** X7: the rest of a constructing call whose placeholder has been evicted in
    the meantime (the constructor runs without the pool lock): the
    constructor returns, the object is filled and marked loaded, and the
    return statement finds no entry for the key. [load_embeddings] raises
    AttributeError, [load_vector_store] returns None; the pool does not hold
    the object. *)
Theorem constructed_after_eviction tid key arg g o x w' v :
  heap g !! o = Some x ->
  _lock x = Some (tid, 1) ->
  OrderedDict.get key (_cache (pool g)) = None ->
  ctor tid key arg (world g) = (w', Ret v) ->
  run_call kind ctor 6 tid {| th_key := key; th_arg := arg; th_pc := P_ctor o |} g
  = ({| th_key := key; th_arg := arg;
        th_pc := match kind with
                 | Embeddings => P_raised AttributeError
                 | KBFaiss => P_done (RetItem None)
                 end |},
     {| pool := pool g;
        heap := <[o := {| _obj := Some v; _key := _key x; _pool := _pool x;
                          _lock := None; _loaded := true |}]> (heap g);
        world := w'; ctor_calls := S (ctor_calls g) |}).
Proof.
  intros Hx Hlk Hg Hc.
  destruct g as [p h w calls]. simpl in Hx, Hg, Hc.
  assert (Ho : o < length h) by by eapply lookup_lt_Some.
  erewrite run_call_S by (snorm; rewrite Hc; reflexivity). snorm.
  erewrite run_call_S by reflexivity. snorm.
  erewrite run_call_S by reflexivity. snorm.
  erewrite run_call_S.
  2:{ snorm. rewrite !list_lookup_alter_eq, Hx. simpl. rewrite Hlk. simpl.
      rewrite decide_True by done. reflexivity. }
  snorm.
  erewrite run_call_S by (snorm; rewrite Hg; reflexivity). snorm.
  rewrite run_call_stop by (by destruct kind).
  assert (Hheap : forall y (hh : list (ThreadSafeObject.t K P)) (f f' : _ -> _),
            hh !! o = Some x ->
            <[o := y]> (alter f' o (alter f o hh)) = <[o := y]> hh).
  { intros y hh f f' Hhh. apply list_eq. intros i.
    assert (o < length hh) by by eapply lookup_lt_Some.
    destruct (decide (i = o)) as [->|Hne].
    - by rewrite !list_lookup_insert_eq by (rewrite ?length_alter; lia).
    - rewrite !list_lookup_insert_ne by done.
      by rewrite !list_lookup_alter_ne by done. }
  unfold with_heap, constructed, at_pc. snorm. rewrite (Hheap _ h _ _ Hx).
  unfold set_lock, finish_loading, set_loaded, set_obj. simpl. reflexivity.
Qed.

(** X8: a pool with bound 1, such as the module's [embeddings_pool]: after a
    call that misses and constructs, the pool caches the new key and nothing
    else, whatever it held before and whoever uses it. *)
Theorem bound_one_keeps_last tid key arg g w' v :
  _cache_num (pool g) = 1%Z ->
  OrderedDict.get key (_cache (pool g)) = None ->
  atomic (pool g) = None ->
  ctor tid key arg (world g) = (w', Ret v) ->
  _cache (pool (snd (call_outcome kind ctor tid (call key arg) g)))
  = [(key, length (heap g))].
Proof.
  intros Hn Hg Hat Hc.
  rewrite (call_miss_ret kind ctor tid key arg g w' v Hg Hat Hc). cbn [snd]. snorm.
  unfold pool_after_miss. snorm.
  rewrite set_new_cache by done. rewrite Hn.
  change (evicted_count 1 (S (length (_cache (pool g))))) with (length (_cache (pool g)) - 0).
  rewrite Nat.sub_0_r, drop_all. simpl. by rewrite decide_True.
Qed.

(** X9: unloading and loading again: after [unload_vector_store] of a cached,
    loaded key, the next call for the key misses; the constructor runs again
    and the call returns a new object, cached under the key. The object
    unloaded before is another one: whoever still holds it works on a store
    the pool no longer knows. *)
Theorem unload_then_load_rebuilds tid key arg g o w' v :
  OrderedDict.get key (_cache (pool g)) = Some o ->
  is_loaded (heap g) o = true ->
  atomic (pool g) = None ->
  ctor tid key arg (world g) = (w', Ret v) ->
  exists g',
    call_outcome kind ctor tid (call key arg)
      (with_pool (snd (unload_vector_store (heap g) key (pool g))) g)
    = (Ret (match kind with
            | Embeddings => RetObj (Some v)
            | KBFaiss => RetItem (Some (length (heap g)))
            end), g') /\
    OrderedDict.get key (_cache (pool g')) = Some (length (heap g)) /\
    heap g' = heap g ++ [loaded_object key v] /\
    ctor_calls g' = S (ctor_calls g) /\
    o < length (heap g).
Proof.
  intros Hg Hl Hat Hc.
  assert (Hun : unload_vector_store (heap g) key (pool g)
                = (Ret tt, with_cache (OrderedDict.remove key (_cache (pool g))) (pool g))).
  { unfold unload_vector_store, CachePool.get. by rewrite Hg, Hl. }
  rewrite Hun. cbn [snd].
  rewrite (call_miss_ret kind ctor tid key arg
             (with_pool (with_cache (OrderedDict.remove key (_cache (pool g))) (pool g)) g)
             w' v).
  - eexists. split; [by destruct kind|]. snorm. split_and!; try done.
    + apply pool_after_miss_get.
    + unfold is_loaded in Hl. destruct (heap g !! o) eqn:Hx; [|done].
      by eapply lookup_lt_Some.
  - snorm. rewrite od_get_remove. by rewrite decide_True.
  - done.
  - exact Hc.
Qed.

End CallsMore.

(** ** The with-block of an object *)
Section WithBlock.
Import ThreadSafeObject CachePool WithAcquire.
Context {K P : Type} `{EqDecision K}.
Implicit Types (o : objref) (p : CachePool.t K) (h : list (ThreadSafeObject.t K P)).

Lemma release_acquire tid (l l' : RLock.t) :
  counted l = true -> RLock.acquire tid l = Some l' -> RLock.release tid l' = Some l.
Proof.
  unfold RLock.acquire, RLock.release, counted.
  destruct l as [[owner [|n]]|]; try done.
  - destruct (decide (owner = tid)) as [->|]; [|done].
    intros _ [= <-]. by rewrite decide_True.
  - intros _ [= <-]. by rewrite decide_True.
Qed.

Lemma set_lock_id (x : ThreadSafeObject.t K P) l l' :
  _lock x = l -> set_lock l (set_lock l' x) = x.
Proof. destruct x. simpl. by intros ->. Qed.

Lemma acquire_enter_Ret tid o h p h1 p1 :
  acquire_enter tid o h p = (Ret tt, h1, p1) ->
  exists x l, h !! o = Some x /\ RLock.acquire tid (_lock x) = Some l /\
    h1 = <[o := set_lock l x]> h /\
    (forall k, OrderedDict.get k (_cache p1) = OrderedDict.get k (_cache p)) /\
    _cache_num p1 = _cache_num p /\ atomic p1 = atomic p.
Proof.
  unfold acquire_enter. intros Hen.
  destruct (h !! o) as [x|] eqn:Hx; [|done].
  destruct (RLock.acquire tid (_lock x)) as [l|] eqn:Hl; [|done].
  exists x, l. destruct (_pool x).
  - destruct (OrderedDict.move_to_end (_key x) (_cache p)) as [d'|] eqn:Hm; [|done].
    injection Hen as <- <-. split_and!; try done.
    intros k. simpl. by eapply od_get_move_to_end.
  - by injection Hen as <- <-.
Qed.

(** X10: entering and leaving [with obj.acquire()]: when the block has been
    entered, leaving it does not raise and gives the lock back as it was
    found (free, or held as often as before by the same thread); the objects
    are as before the block, and so is the object of every key of the pool. *)
Theorem with_block_restores_lock tid o h p h1 p1 x :
  h !! o = Some x ->
  counted (_lock x) = true ->
  acquire_enter tid o h p = (Ret tt, h1, p1) ->
  acquire_exit tid o h1 = (Ret tt, h) /\
  forall k, OrderedDict.get k (_cache p1) = OrderedDict.get k (_cache p).
Proof.
  intros Hx Hc Hen.
  destruct (acquire_enter_Ret _ _ _ _ _ _ Hen) as (x' & l & Hx' & Hl & -> & Hget & _).
  rewrite Hx in Hx'. injection Hx' as <-. split; [|done].
  assert (Ho : o < length h) by by eapply lookup_lt_Some.
  unfold acquire_exit. rewrite list_lookup_insert_eq by done. simpl.
  rewrite (release_acquire tid _ l Hc Hl).
  rewrite list_insert_insert_eq, set_lock_id by done.
  by rewrite list_insert_id.
Qed.

End WithBlock.

(** ** The methods of ThreadSafeFaiss *)
Section FaissObject.
Import ThreadSafeObject CachePool Faiss WithAcquire ThreadSafeFaiss.
Context {K E : Type} `{EqDecision K}.
Implicit Types (o : objref) (p : CachePool.t K).
Implicit Types (h : list (ThreadSafeObject.t K (FAISS (E:=E)))).

Lemma acquire_enter_evicted tid o h p x :
  h !! o = Some x ->
  _pool x = true ->
  is_Some (RLock.acquire tid (_lock x)) ->
  OrderedDict.get (_key x) (_cache p) = None ->
  acquire_enter tid o h p = (Raise KeyError, h, p).
Proof.
  intros Hx Hp [l Hl] Hg. unfold acquire_enter, OrderedDict.move_to_end.
  by rewrite Hx, Hl, Hp, Hg.
Qed.

(** X11: using an object after its key has been removed from the pool: once
    [pop] has run for the key (and likewise once the key has been evicted),
    [save] and [clear] raise KeyError on entering their with-block; nothing
    is written to disk, no document is deleted and the object's lock is as
    before. *)
Theorem save_and_clear_after_pop tid o x path create_path h p fs :
  h !! o = Some x ->
  _pool x = true ->
  is_Some (RLock.acquire tid (_lock x)) ->
  save tid o path create_path h (snd (pop (Some (_key x)) p)) fs
    = (Raise KeyError, h, snd (pop (Some (_key x)) p), fs) /\
  clear tid o h (snd (pop (Some (_key x)) p))
    = (Raise KeyError, h, snd (pop (Some (_key x)) p)).
Proof.
  intros Hx Hp Hl.
  assert (Hg : OrderedDict.get (_key x) (_cache (snd (pop (Some (_key x)) p))) = None).
  { unfold pop, OrderedDict.pop. simpl. rewrite od_get_remove. by rewrite decide_True. }
  unfold save, clear. by rewrite (acquire_enter_evicted tid o h _ x Hx Hp Hl Hg).
Qed.

Lemma filter_known_ids (ids : list string) (d : list (string * Document)) :
  (forall kv, kv ∈ d -> fst kv ∈ ids) ->
  filter (fun kv => fst kv ∉ ids) d = [].
Proof.
  induction d as [|kv d IH]; intros Hin; [done|].
  rewrite filter_cons_False.
  - apply IH. intros kv' Hkv'. apply Hin. by apply list_elem_of_further.
  - intros Hn. apply Hn, Hin, list_elem_of_here.
Qed.

Lemma delete_all (vs : FAISS (E:=E)) :
  delete (map fst (docstore vs)) vs
  = inl {| embedding_function := embedding_function vs; docstore := [] |}.
Proof.
  unfold delete.
  assert (Hall : forallb (fun i => bool_decide (i ∈ map fst (docstore vs)))
                   (map fst (docstore vs)) = true).
  { apply forallb_forall. intros i Hin. apply bool_decide_eq_true_2.
    by apply list_elem_of_In. }
  rewrite Hall. do 2 f_equal.
  apply filter_known_ids. intros kv Hkv. apply list_elem_of_fmap. by exists kv.
Qed.

(** X12: [clear] on a loaded store whose key is cached and whose lock the caller
    can take: it returns, never with the AssertionError of its assert nor the
    ValueError of [delete]; afterwards the store holds no document
    ([docs_count] is 0), the lock is as it was found, and no other object
    has changed. On a store without documents it returns the empty list
    without calling [delete]. *)
Theorem clear_empties_store tid o x vs h p :
  h !! o = Some x ->
  _obj x = Some vs ->
  counted (_lock x) = true ->
  is_Some (RLock.acquire tid (_lock x)) ->
  (_pool x = true -> is_Some (OrderedDict.get (_key x) (_cache p))) ->
  exists p',
    clear tid o h p
    = (Ret (match docstore vs with [] => Cleared_nothing | _ :: _ => Cleared_deleted end),
       <[o := set_obj (Some {| embedding_function := embedding_function vs;
                               docstore := [] |}) x]> h,
       p') /\
    docs_count o (<[o := set_obj (Some {| embedding_function := embedding_function vs;
                                          docstore := [] |}) x]> h) = Ret 0 /\
    forall k, OrderedDict.get k (_cache p') = OrderedDict.get k (_cache p).
Proof.
  intros Hx Hobj Hc [l Hl] Hk.
  assert (Ho : o < length h) by by eapply lookup_lt_Some.
  assert (Hen : exists p', acquire_enter tid o h p = (Ret tt, <[o := set_lock l x]> h, p')).
  { unfold acquire_enter. rewrite Hx, Hl. destruct (_pool x); [|eauto].
    destruct (Hk eq_refl) as [o' Hg].
    destruct (od_move_to_end_is_Some _ _ _ Hg) as [d' ->]. eauto. }
  destruct Hen as [p' Hen]. exists p'.
  destruct (acquire_enter_Ret _ _ _ _ _ _ Hen) as (_ & _ & _ & _ & _ & Hget & _).
  split_and!; [|unfold docs_count; by rewrite list_lookup_insert_eq by done|done].
  unfold clear. rewrite Hen, list_lookup_insert_eq by done.
  destruct x as [ob ky pl lk ld]. simpl in Hobj, Hc, Hl. subst ob.
  cbn [set_lock _obj _key _pool _lock _loaded].
  destruct vs as [ef ds]. cbn [docstore embedding_function].
  destruct ds as [|kv ds].
  - cbn [map]. unfold acquire_exit. rewrite list_lookup_insert_eq by done.
    cbn [set_lock _lock _obj _key _pool _loaded].
    rewrite (release_acquire tid lk l Hc Hl).
    rewrite list_insert_insert_eq. done.
  - set (vs := {| embedding_function := ef; docstore := kv :: ds |}).
    change (map fst (kv :: ds)) with (map fst (docstore vs)).
    destruct (map fst (docstore vs)) as [|i ids] eqn:Hids; [done|].
    rewrite <- Hids, delete_all. cbn [docstore length].
    rewrite bool_decide_eq_true_2 by done.
    unfold acquire_exit. rewrite list_lookup_alter_eq, list_lookup_insert_eq by done.
    cbn [fmap option_fmap option_map set_obj set_lock _lock _obj _key _pool _loaded].
    rewrite (release_acquire tid lk l Hc Hl). subst vs.
    cbn [embedding_function set_obj set_lock _lock _obj _key _pool _loaded].
    do 2 f_equal. apply list_eq. intros j. destruct (decide (j = o)) as [->|Hne].
    + by rewrite !list_lookup_insert_eq by (rewrite ?length_alter, ?length_insert; lia).
    + rewrite !list_lookup_insert_ne by done.
      rewrite list_lookup_alter_ne by done. by rewrite list_lookup_insert_ne by done.
Qed.

End FaissObject.

(** ** Saving a store and loading it again *)
Section SaveLoad.
Import ThreadSafeObject CachePool Machine Faiss WithAcquire ThreadSafeFaiss.
Context {E WE : Type}.
Variable EmbeddingsFunAdapter : string -> E.
Variable list_online_embed_models : list string.
Variable EMBEDDING_MODEL : string.
Variable embedding_device : string.
Variable get_model_path : string -> string.
Variable CHUNK_SIZE : Z.
Variable OpenAIEmbeddings : string -> string -> Z -> WE -> WE * (E + exn).
Variable HuggingFaceBgeEmbeddings : string -> string -> string -> WE -> WE * (E + exn).
Variable HuggingFaceEmbeddings : string -> string -> WE -> WE * (E + exn).
Variable set_query_instruction : string -> E -> E.
Variable get_vs_path : string -> string -> string.
Variable embed_documents : E -> list string -> option exn.
Variable uuid4 : nat -> string.




End SaveLoad.

(** ** The patched docstore search *)
Section DocstoreSearch.
Import Faiss ThreadSafeFaiss.

Lemma od_setitem_setitem {K V} `{EqDecision K} (k : K) (v v' : V) d :
  OrderedDict.setitem k v (OrderedDict.setitem k v' d) = OrderedDict.setitem k v d.
Proof.
  induction d as [|[k0 v0] d IH]; simpl.
  - by rewrite decide_True.
  - destruct (decide (k = k0)) as [->|Hne]; simpl.
    + by rewrite decide_True.
    + rewrite decide_False by done. by rewrite IH.
Qed.

(** X14: a search for a known identifier changes the stored document: the
    document returned carries the identifier under "id" in its metadata and
    is otherwise the stored one, and it is what the docstore holds under the
    identifier afterwards; the other documents and the order of the
    identifiers are as before. *)
Theorem new_ds_search_tags_stored_document search d doc :
  OrderedDict.get search d = Some doc ->
  exists doc',
    fst (_new_ds_search search d) = inr doc' /\
    page_content doc' = page_content doc /\
    (forall k, OrderedDict.get k (metadata doc')
               = if decide (k = "id") then Some search
                 else OrderedDict.get k (metadata doc)) /\
    (forall i, OrderedDict.get i (snd (_new_ds_search search d))
               = if decide (i = search) then Some doc' else OrderedDict.get i d) /\
    OrderedDict.keys (snd (_new_ds_search search d)) = OrderedDict.keys d.
Proof.
  intros Hg. unfold _new_ds_search. rewrite Hg. eexists. split; [reflexivity|].
  cbn [fst snd page_content metadata]. split_and!.
  - done.
  - intros k. apply od_get_setitem.
  - intros i. apply od_get_setitem.
  - by eapply od_keys_setitem_present.
Qed.

(** X15: searching again changes nothing more: a second search for the same
    identifier returns what the first returned and leaves the docstore as
    the first left it; and a search changes the docstore only when the
    identifier is known. *)
Theorem new_ds_search_twice search d :
  _new_ds_search search (snd (_new_ds_search search d)) = _new_ds_search search d /\
  (is_Some (OrderedDict.get search d) \/ snd (_new_ds_search search d) = d).
Proof.
  unfold _new_ds_search.
  destruct (OrderedDict.get search d) as [doc|] eqn:Hg; cbn [snd].
  - split; [|by left]. rewrite od_get_setitem, decide_True by done.
    cbn [page_content metadata]. by rewrite !od_setitem_setitem.
  - split; [by rewrite Hg|by right].
Qed.

End DocstoreSearch.

(** ** Dropping the summary of a knowledge base *)
Section DropSummary.
Import ThreadSafeObject CachePool Machine Faiss KBSummary.
Context {E WE : Type}.
Variable EmbeddingsFunAdapter : string -> E.
Variable list_online_embed_models : list string.
Variable EMBEDDING_MODEL : string.
Variable embedding_device : string.
Variable get_model_path : string -> string.
Variable CHUNK_SIZE : Z.
Variable OpenAIEmbeddings : string -> string -> Z -> WE -> WE * (E + exn).
Variable HuggingFaceBgeEmbeddings : string -> string -> string -> WE -> WE * (E + exn).
Variable HuggingFaceEmbeddings : string -> string -> WE -> WE * (E + exn).
Variable set_query_instruction : string -> E -> E.
Variable get_vs_path : string -> string -> string.
Variable embed_documents : E -> list string -> option exn.
Variable uuid4 : nat -> string.
Variable KB_ROOT_PATH : string.








End DropSummary.

(** ** Mutual exclusion under the pool lock *)
Section PoolLock.
Import ThreadSafeObject CachePool Machine.
Context {K P A W : Type} `{EqDecision K}.
Variable kind : pool_kind.
Variable ctor : nat -> K -> A -> W -> W * outcome P.

Implicit Types (g : shared (K:=K) (P:=P) (W:=W)) (c : pc (P:=P)).
Implicit Types (s : state (K:=K) (P:=P) (A:=A) (W:=W)).

(** What one statement does to the pool lock: it takes it
    ([self.atomic.acquire()]), or it leaves the part of the program that runs
    under the lock, or it keeps the lock as it is and stays on its side. *)
Lemma lstep_pool_lock i key a c g c' g' :
  lstep kind ctor i key a c g = Some (c', g') ->
  (c = P_atomic_acquire /\ c' = P_get /\
   RLock.acquire i (atomic (pool g)) = Some (atomic (pool g'))) \/
  (OneKey.holder c = true /\ OneKey.holder c' = false /\ c' <> P_atomic_acquire /\
   (RLock.release i (atomic (pool g)) = Some (atomic (pool g')) \/
    atomic (pool g') = atomic (pool g))) \/
  (atomic (pool g') = atomic (pool g) /\ OneKey.holder c' = OneKey.holder c /\
   c <> P_atomic_acquire /\ c' <> P_atomic_acquire).
Proof.
  intros Hl.
  destruct c; simpl in Hl;
    repeat match type of Hl with
           | context [match ?e with _ => _ end] => destruct e eqn:?
           | context [if ?e then _ else _] => destruct e eqn:?
           end; simplify_eq; simpl; rewrite ?set_atomic; eauto 10.
Qed.

Lemma lock_inv_step s s' :
  PoolLock.lock_inv s -> step kind ctor s s' -> PoolLock.lock_inv s'.
Proof.
  intros [Hin Hown] [i Hi]. unfold tstep in Hi.
  destruct (threads s !! i) as [t|] eqn:Ht; [|done].
  destruct (lstep _ _ _ _ _ _ _) as [[c' g']|] eqn:Hl; [|done].
  injection Hi as <-. unfold PoolLock.lock_inv. cbn [sh threads].
  assert (Hlen : i < length (threads s)) by by eapply lookup_lt_Some.
  destruct (lstep_pool_lock _ _ _ _ _ _ _ Hl)
    as [(Hc & -> & Hacq)|[(Hh & Hh' & Hne & Hrel)|(Hat & Hh & Hne & Hne')]].
  - (* the lock is taken *)
    assert (Hfree : atomic (pool (sh s)) = None).
    { destruct (atomic (pool (sh s))) as [[j n]|] eqn:Hat; [|done].
      destruct (Hown j n eq_refl) as [_ (tj & Htj & Hpc)].
      unfold RLock.acquire in Hacq.
      destruct (decide (j = i)) as [->|]; [|done].
      rewrite Ht in Htj. injection Htj as <-. done. }
    rewrite Hfree in Hacq. injection Hacq as Hacq. split.
    + intros j tj Htj Hhj. destruct (decide (j = i)) as [->|Hji]; [by rewrite <- Hacq|].
      rewrite list_lookup_insert_ne in Htj by done.
      specialize (Hin j tj Htj Hhj). congruence.
    + intros j n Hat. rewrite <- Hacq in Hat. injection Hat as <- <-.
      split; [done|]. exists (at_pc P_get t).
      by rewrite list_lookup_insert_eq by done.
  - (* the thread leaves the part under the lock *)
    pose proof (Hin i t Ht Hh) as Hmine.
    split.
    + intros j tj Htj Hhj. destruct (decide (j = i)) as [->|Hji].
      * rewrite list_lookup_insert_eq in Htj by done. injection Htj as <-.
        simpl in Hhj. congruence.
      * rewrite list_lookup_insert_ne in Htj by done.
        specialize (Hin j tj Htj Hhj). congruence.
    + intros j n Hat'. destruct Hrel as [Hrel|Hsame].
      * rewrite Hmine in Hrel. unfold RLock.release in Hrel.
        rewrite decide_True in Hrel by done. congruence.
      * rewrite Hsame in Hat'. destruct (Hown j n Hat') as [-> (tj & Htj & Hpc)].
        split; [done|]. destruct (decide (j = i)) as [->|Hji].
        -- exists (at_pc c' t). by rewrite list_lookup_insert_eq by done.
        -- exists tj. by rewrite list_lookup_insert_ne by done.
  - (* the lock is not touched *)
    split.
    + intros j tj Htj Hhj. rewrite Hat. destruct (decide (j = i)) as [->|Hji].
      * rewrite list_lookup_insert_eq in Htj by done. injection Htj as <-.
        simpl in Hhj. apply (Hin i t Ht). congruence.
      * rewrite list_lookup_insert_ne in Htj by done. by apply (Hin j tj).
    + intros j n Hat'. rewrite Hat in Hat'. destruct (Hown j n Hat') as [-> (tj & Htj & Hpc)].
      split; [done|]. destruct (decide (j = i)) as [->|Hji].
      * exists (at_pc c' t). by rewrite list_lookup_insert_eq by done.
      * exists tj. by rewrite list_lookup_insert_ne by done.
Qed.

Lemma lock_inv_rtc s s' :
  PoolLock.lock_inv s -> rtc (step kind ctor) s s' -> PoolLock.lock_inv s'.
Proof. intros Hs Hr. induction Hr; eauto using lock_inv_step. Qed.

Lemma run_rtc sched s s' : run kind ctor sched s = Some s' -> rtc (step kind ctor) s s'.
Proof.
  revert s. induction sched as [|i sched IH]; intros s; simpl.
  - intros [= <-]. apply rtc_refl.
  - destruct (tstep kind ctor i s) as [s1|] eqn:Hi; [|done].
    intros Hr. eapply rtc_l; [by exists i|by apply IH].
Qed.

(** X17: the pool lock gives mutual exclusion on the look-up-and-insert part
    of a load: for any number of concurrent calls, for any keys and whatever
    the constructors do, a thread between [self.atomic.acquire()] and the
    matching [self.atomic.release()] owns the pool lock, and no two threads
    are there at the same time. *)
Theorem pool_lock_mutual_exclusion s0 s :
  atomic (pool (sh s0)) = None ->
  (forall i t, threads s0 !! i = Some t -> th_pc t = P_atomic_acquire) ->
  rtc (step kind ctor) s0 s ->
  forall i ti, threads s !! i = Some ti -> OneKey.holder (th_pc ti) = true ->
    atomic (pool (sh s)) = Some (i, 1) /\
    forall j tj, threads s !! j = Some tj -> OneKey.holder (th_pc tj) = true -> j = i.
Proof.
  intros Hat Hstart Hr.
  assert (H0 : PoolLock.lock_inv s0).
  { split.
    - intros i t Ht Hh. by rewrite (Hstart i t Ht) in Hh.
    - intros j n Hj. congruence. }
  destruct (lock_inv_rtc _ _ H0 Hr) as [Hin _].
  intros i ti Hti Hhi. split; [by eapply Hin|].
  intros j tj Htj Hhj.
  pose proof (Hin i ti Hti Hhi). pose proof (Hin j tj Htj Hhj). congruence.
Qed.

End PoolLock.

(** ** The further properties at concrete inputs *)

(** X3 at a concrete input. *)
Lemma set_cached_key_keeps_place_witness :
  OrderedDict.get "A" (CachePool._cache Scenes.pool_AB) = Some 0 /\
  CachePool.keys (CachePool.set "A" 7 Scenes.pool_AB)
    = CachePool.keys Scenes.pool_AB /\
  OrderedDict.get "A" (CachePool._cache (CachePool.set "A" 7 Scenes.pool_AB))
    = Some 7.
Proof.
  assert (Hg : OrderedDict.get "A" (CachePool._cache Scenes.pool_AB)
               = Some 0) by reflexivity.
  assert (Hb : (Z.of_nat (length (CachePool._cache Scenes.pool_AB))
                <= CachePool._cache_num Scenes.pool_AB)%Z \/
               (CachePool._cache_num Scenes.pool_AB <= 0)%Z)
    by (left; simpl; lia).
  destruct (set_cached_key_keeps_place "A" 0 7 Scenes.pool_AB Hg Hb)
    as [Hkeys Hget].
  split; [exact Hg|]. split; [exact Hkeys|]. exact (Hget "A").
Defined.

(** X4 at a concrete input. *)
Lemma acquire_then_new_keys_witness :
  OrderedDict.get "A"
    (CachePool._cache
       (foldl (fun q kv => CachePool.set (fst kv) (snd kv) q)
          (snd (CachePool.acquire [Demo.idle "A"; Demo.idle "B"] "A"
                  Scenes.pool_AB))
          [("C", 2)]))
  = Some 0 /\
  OrderedDict.get "A"
    (CachePool._cache
       (foldl (fun q kv => CachePool.set (fst kv) (snd kv) q)
          (snd (CachePool.acquire [Demo.idle "A"; Demo.idle "B"] "A"
                  Scenes.pool_AB))
          [("C", 2); ("D", 3)]))
  = None.
Proof.
  split.
  - apply (acquire_then_new_keys [Demo.idle "A"; Demo.idle "B"] "A" 0
             Scenes.pool_AB [("C", 2)]);
      [reflexivity|simpl; lia|reflexivity|reflexivity| |].
    + apply NoDup_singleton.
    + intros kv [->|Hin%elem_of_nil]%elem_of_cons; [reflexivity|done].
  - apply (acquire_then_new_keys [Demo.idle "A"; Demo.idle "B"] "A" 0
             Scenes.pool_AB [("C", 2); ("D", 3)]);
      [reflexivity|simpl; lia|reflexivity|reflexivity| |].
    + apply NoDup_cons. split; [|apply NoDup_singleton].
      intros [= ]%list_elem_of_singleton.
    + intros kv [->|[->|Hin%elem_of_nil]%elem_of_cons]%elem_of_cons;
        [reflexivity|reflexivity|done].
Defined.

(** X5 at a concrete input. *)
Lemma call_on_loaded_key_witness :
  OrderedDict.get "A" (CachePool._cache (Machine.pool Scenes.two_loaded)) = Some 0 /\
  CachePool.atomic (Machine.pool Scenes.two_loaded) = None /\
  CachePool.is_loaded (Machine.heap Scenes.two_loaded) 0 = true /\
  Machine.call_outcome Machine.KBFaiss Demo.ctor_fail 5 (Machine.call "A" tt) Scenes.two_loaded
    = (Ret (Machine.RetItem (Some 0)), Scenes.two_loaded).
Proof.
  assert (Hg : OrderedDict.get "A" (CachePool._cache (Machine.pool Scenes.two_loaded))
               = Some 0) by reflexivity.
  assert (Hat : CachePool.atomic (Machine.pool Scenes.two_loaded) = None) by reflexivity.
  assert (Hl : CachePool.is_loaded (Machine.heap Scenes.two_loaded) 0 = true)
    by reflexivity.
  split; [exact Hg|]. split; [exact Hat|]. split; [exact Hl|].
  exact (call_on_loaded_key Machine.KBFaiss Demo.ctor_fail 5 "A" tt Scenes.two_loaded 0
           Hg Hat Hl).
Defined.

(** X6 at a concrete input. *)
Lemma second_call_reuses_witness :
  Demo.ctor_ok 0 "A" tt (Machine.world (Demo.fresh 1)) = (tt, Ret "handle:A") /\
  Machine.call_outcome Machine.Embeddings Demo.ctor_ok 1 (Machine.call "A" tt)
    (snd (Machine.call_outcome Machine.Embeddings Demo.ctor_ok 0 (Machine.call "A" tt)
            (Demo.fresh 1)))
  = Machine.call_outcome Machine.Embeddings Demo.ctor_ok 0 (Machine.call "A" tt)
      (Demo.fresh 1) /\
  Machine.ctor_calls
    (snd (Machine.call_outcome Machine.Embeddings Demo.ctor_ok 0 (Machine.call "A" tt)
            (Demo.fresh 1))) = 1.
Proof.
  assert (Hg : OrderedDict.get "A" (CachePool._cache (Machine.pool (Demo.fresh 1))) = None)
    by reflexivity.
  assert (Hat : CachePool.atomic (Machine.pool (Demo.fresh 1)) = None) by reflexivity.
  assert (Hc : Demo.ctor_ok 0 "A" tt (Machine.world (Demo.fresh 1)) = (tt, Ret "handle:A"))
    by reflexivity.
  split; [exact Hc|].
  exact (second_call_reuses Machine.Embeddings Demo.ctor_ok 0 1 "A" tt tt (Demo.fresh 1)
           tt "handle:A" Hg Hat Hc).
Defined.

(** X7 at a concrete input. *)
Lemma constructed_after_eviction_witness :
  Machine.run Machine.Embeddings Demo.ctor_ok (Demo.sched_evict ++ [1])
    (Demo.start 1 ["A"; "B"]) = Some Scenes.evicted /\
  fst (Machine.run_call Machine.Embeddings Demo.ctor_ok 6 0
         {| Machine.th_key := "A"; Machine.th_arg := tt; Machine.th_pc := Machine.P_ctor 0 |}
         (Machine.sh Scenes.evicted))
  = {| Machine.th_key := "A"; Machine.th_arg := tt;
       Machine.th_pc := Machine.P_raised AttributeError |}.
Proof.
  assert (Hx : Machine.heap (Machine.sh Scenes.evicted) !! 0 = Some (Demo.loading "A" 0))
    by reflexivity.
  assert (Hlk : ThreadSafeObject._lock (Demo.loading "A" 0) = Some (0, 1)) by reflexivity.
  assert (Hg : OrderedDict.get "A" (CachePool._cache (Machine.pool (Machine.sh Scenes.evicted)))
               = None) by reflexivity.
  assert (Hc : Demo.ctor_ok 0 "A" tt (Machine.world (Machine.sh Scenes.evicted))
               = (tt, Ret "handle:A")) by reflexivity.
  split; [vm_compute; reflexivity|].
  rewrite (constructed_after_eviction Machine.Embeddings Demo.ctor_ok 0 "A" tt
             (Machine.sh Scenes.evicted) 0 (Demo.loading "A" 0) tt "handle:A" Hx Hlk Hg Hc).
  reflexivity.
Defined.

(** X8 at a concrete input. *)
Lemma bound_one_keeps_last_witness :
  CachePool._cache_num (Machine.pool Demo.after_failure) = 1%Z /\
  OrderedDict.get "B" (CachePool._cache (Machine.pool Demo.after_failure)) = None /\
  CachePool._cache
    (Machine.pool (snd (Machine.call_outcome Machine.Embeddings Demo.ctor_ok 0
                          (Machine.call "B" tt) Demo.after_failure)))
  = [("B", 1)].
Proof.
  assert (Hn : CachePool._cache_num (Machine.pool Demo.after_failure) = 1%Z) by reflexivity.
  assert (Hg : OrderedDict.get "B" (CachePool._cache (Machine.pool Demo.after_failure)) = None)
    by reflexivity.
  assert (Hat : CachePool.atomic (Machine.pool Demo.after_failure) = None) by reflexivity.
  assert (Hc : Demo.ctor_ok 0 "B" tt (Machine.world Demo.after_failure) = (tt, Ret "handle:B"))
    by reflexivity.
  split; [exact Hn|]. split; [exact Hg|].
  exact (bound_one_keeps_last Machine.Embeddings Demo.ctor_ok 0 "B" tt Demo.after_failure
           tt "handle:B" Hn Hg Hat Hc).
Defined.

(** X9 at a concrete input. *)
Lemma unload_then_load_rebuilds_witness :
  OrderedDict.get "A" (CachePool._cache (Machine.pool Scenes.two_loaded)) = Some 0 /\
  CachePool.is_loaded (Machine.heap Scenes.two_loaded) 0 = true /\
  exists g',
    Machine.call_outcome Machine.KBFaiss Demo.ctor_ok 0 (Machine.call "A" tt)
      (Machine.with_pool
         (snd (CachePool.unload_vector_store (Machine.heap Scenes.two_loaded) "A"
                 (Machine.pool Scenes.two_loaded)))
         Scenes.two_loaded)
    = (Ret (Machine.RetItem (Some 2)), g') /\
    OrderedDict.get "A" (CachePool._cache (Machine.pool g')) = Some 2 /\
    Machine.ctor_calls g' = 3.
Proof.
  assert (Hg : OrderedDict.get "A" (CachePool._cache (Machine.pool Scenes.two_loaded))
               = Some 0) by reflexivity.
  assert (Hl : CachePool.is_loaded (Machine.heap Scenes.two_loaded) 0 = true)
    by reflexivity.
  assert (Hat : CachePool.atomic (Machine.pool Scenes.two_loaded) = None) by reflexivity.
  assert (Hc : Demo.ctor_ok 0 "A" tt (Machine.world Scenes.two_loaded) = (tt, Ret "handle:A"))
    by reflexivity.
  split; [exact Hg|]. split; [exact Hl|].
  destruct (unload_then_load_rebuilds Machine.KBFaiss Demo.ctor_ok 0 "A" tt
              Scenes.two_loaded 0 tt "handle:A" Hg Hl Hat Hc)
    as (g' & Hret & Hget & _ & Hcalls & _).
  exists g'. split; [exact Hret|]. split; [exact Hget|exact Hcalls].
Defined.

(** X10 at a concrete input. *)
Lemma with_block_restores_lock_witness :
  CachePool.acquire_enter 3 0 [Demo.in_use "A" 3; Demo.idle "B"] Scenes.pool_AB
    = (Ret tt, [ThreadSafeObject.set_lock (Some (3, 2)) (Demo.in_use "A" 3); Demo.idle "B"],
       Demo.pool_of 2 [("B", 1); ("A", 0)]) /\
  WithAcquire.acquire_exit 3 0
    [ThreadSafeObject.set_lock (Some (3, 2)) (Demo.in_use "A" 3); Demo.idle "B"]
    = (Ret tt, [Demo.in_use "A" 3; Demo.idle "B"]) /\
  OrderedDict.get "A" (CachePool._cache (Demo.pool_of 2 [("B", 1); ("A", 0)]))
    = OrderedDict.get "A" (CachePool._cache Scenes.pool_AB).
Proof.
  assert (Hx : [Demo.in_use "A" 3; Demo.idle "B"] !! 0 = Some (Demo.in_use "A" 3))
    by reflexivity.
  assert (Hc : WithAcquire.counted (ThreadSafeObject._lock (Demo.in_use "A" 3)) = true)
    by reflexivity.
  assert (Hen : CachePool.acquire_enter 3 0 [Demo.in_use "A" 3; Demo.idle "B"] Scenes.pool_AB
                = (Ret tt,
                   [ThreadSafeObject.set_lock (Some (3, 2)) (Demo.in_use "A" 3); Demo.idle "B"],
                   Demo.pool_of 2 [("B", 1); ("A", 0)])) by reflexivity.
  destruct (with_block_restores_lock 3 0 [Demo.in_use "A" 3; Demo.idle "B"] Scenes.pool_AB
              _ _ (Demo.in_use "A" 3) Hx Hc Hen) as [Hex Hget].
  split; [exact Hen|]. split; [exact Hex|exact (Hget "A")].
Defined.

(** X11 at a concrete input. *)
Lemma save_and_clear_after_pop_witness :
  ThreadSafeObject._pool (loaded_object ("kb1", "default") Scenes.store) = true /\
  ThreadSafeFaiss.save 0 0 "/kb/kb1/vector_store/default" true Scenes.kb_loaded
    (snd (CachePool.pop (Some ("kb1", "default")) Scenes.kb_pool)) Scenes.no_disk
  = (Raise KeyError, Scenes.kb_loaded,
     snd (CachePool.pop (Some ("kb1", "default")) Scenes.kb_pool), Scenes.no_disk) /\
  ThreadSafeFaiss.clear 0 0 Scenes.kb_loaded
    (snd (CachePool.pop (Some ("kb1", "default")) Scenes.kb_pool))
  = (Raise KeyError, Scenes.kb_loaded,
     snd (CachePool.pop (Some ("kb1", "default")) Scenes.kb_pool)).
Proof.
  assert (Hx : Scenes.kb_loaded !! 0 = Some (loaded_object ("kb1", "default") Scenes.store))
    by reflexivity.
  assert (Hp : ThreadSafeObject._pool (loaded_object ("kb1", "default") Scenes.store) = true)
    by reflexivity.
  assert (Hl : is_Some (RLock.acquire 0
                 (ThreadSafeObject._lock (loaded_object ("kb1", "default") Scenes.store))))
    by (eexists; reflexivity).
  split; [exact Hp|].
  exact (save_and_clear_after_pop 0 0 (loaded_object ("kb1", "default") Scenes.store)
           "/kb/kb1/vector_store/default" true Scenes.kb_loaded Scenes.kb_pool
           Scenes.no_disk Hx Hp Hl).
Defined.

(** X12 at a concrete input. *)
Lemma clear_empties_store_witness :
  Scenes.kb_loaded !! 0 = Some (loaded_object ("kb1", "default") Scenes.store) /\
  ThreadSafeFaiss.docs_count 0 Scenes.kb_loaded = Ret 2 /\
  exists p',
    ThreadSafeFaiss.clear 0 0 Scenes.kb_loaded Scenes.kb_pool
    = (Ret ThreadSafeFaiss.Cleared_deleted,
       <[0 := ThreadSafeObject.set_obj
                (Some {| Faiss.embedding_function := Some "bge-large-zh"; Faiss.docstore := [] |})
                (loaded_object ("kb1", "default") Scenes.store)]> Scenes.kb_loaded,
       p') /\
    ThreadSafeFaiss.docs_count 0
      (<[0 := ThreadSafeObject.set_obj
                (Some {| Faiss.embedding_function := Some "bge-large-zh"; Faiss.docstore := [] |})
                (loaded_object ("kb1", "default") Scenes.store)]> Scenes.kb_loaded)
    = Ret 0.
Proof.
  assert (Hx : Scenes.kb_loaded !! 0 = Some (loaded_object ("kb1", "default") Scenes.store))
    by reflexivity.
  assert (Hobj : ThreadSafeObject._obj (loaded_object ("kb1", "default") Scenes.store)
                 = Some Scenes.store) by reflexivity.
  assert (Hc : WithAcquire.counted
                 (ThreadSafeObject._lock (loaded_object ("kb1", "default") Scenes.store))
               = true) by reflexivity.
  assert (Hl : is_Some (RLock.acquire 0
                 (ThreadSafeObject._lock (loaded_object ("kb1", "default") Scenes.store))))
    by (eexists; reflexivity).
  assert (Hk : ThreadSafeObject._pool (loaded_object ("kb1", "default") Scenes.store) = true ->
               is_Some (OrderedDict.get
                          (ThreadSafeObject._key (loaded_object ("kb1", "default") Scenes.store))
                          (CachePool._cache Scenes.kb_pool)))
    by (intros _; eexists; reflexivity).
  split; [exact Hx|]. split; [reflexivity|].
  destruct (clear_empties_store 0 0 (loaded_object ("kb1", "default") Scenes.store)
              Scenes.store Scenes.kb_loaded Scenes.kb_pool Hx Hobj Hc Hl Hk)
    as (p' & Hclear & Hcount & _).
  exists p'. split; [exact Hclear|exact Hcount].
Defined.


(** X14 at a concrete input. *)
Lemma new_ds_search_tags_stored_document_witness :
  OrderedDict.get "id-2" Scenes.docs
    = Some {| Faiss.page_content := "second"; Faiss.metadata := [] |} /\
  exists doc',
    fst (ThreadSafeFaiss._new_ds_search "id-2" Scenes.docs) = inr doc' /\
    OrderedDict.get "id" (Faiss.metadata doc') = Some "id-2" /\
    OrderedDict.get "id-2" (snd (ThreadSafeFaiss._new_ds_search "id-2" Scenes.docs))
      = Some doc'.
Proof.
  assert (Hg : OrderedDict.get "id-2" Scenes.docs
               = Some {| Faiss.page_content := "second"; Faiss.metadata := [] |})
    by reflexivity.
  split; [exact Hg|].
  destruct (new_ds_search_tags_stored_document "id-2" Scenes.docs _ Hg)
    as (doc' & Hr & _ & Hmeta & Hstore & _).
  exists doc'. split; [exact Hr|]. split; [exact (Hmeta "id")|exact (Hstore "id-2")].
Defined.


(** X17 at a concrete input. *)
Lemma pool_lock_mutual_exclusion_witness :
  CachePool.atomic (Machine.pool (Machine.sh (Demo.start 1 ["A"; "B"]))) = None /\
  Machine.run Machine.Embeddings Demo.ctor_ok Demo.sched_evict (Demo.start 1 ["A"; "B"])
    = Some Demo.evicting /\
  CachePool.atomic (Machine.pool (Machine.sh Demo.evicting)) = Some (1, 1) /\
  forall j tj, Machine.threads Demo.evicting !! j = Some tj ->
    OneKey.holder (Machine.th_pc tj) = true -> j = 1.
Proof.
  assert (Hat : CachePool.atomic (Machine.pool (Machine.sh (Demo.start 1 ["A"; "B"]))) = None)
    by reflexivity.
  assert (Hstart : forall i t, Machine.threads (Demo.start 1 ["A"; "B"]) !! i = Some t ->
                     Machine.th_pc t = Machine.P_atomic_acquire).
  { intros [|[|i]] t; simpl; intros [= <-]; reflexivity. }
  assert (Hrun : Machine.run Machine.Embeddings Demo.ctor_ok Demo.sched_evict
                   (Demo.start 1 ["A"; "B"]) = Some Demo.evicting)
    by (vm_compute; reflexivity).
  split; [exact Hat|]. split; [exact Hrun|].
  exact (pool_lock_mutual_exclusion Machine.Embeddings Demo.ctor_ok
           (Demo.start 1 ["A"; "B"]) Demo.evicting Hat Hstart
           (run_rtc _ _ _ _ _ Hrun) 1 (Machine.at_pc (Machine.P_set 1) (Machine.call "B" tt))
           eq_refl eq_refl).
Defined.
